(** * sslider.js: the interpolation helper (ip.js) and the slider widget

  A shallow embedding of [src/js/sslider.js] (the concatenation of
  [lib/ip.js] and [src/sslider.js]).  Objects mutated in place become
  records threaded through the functions; the two host services the code
  relies on, the clock ([Date.now]) and the timers ([setInterval],
  [setTimeout]), are explicit: every clock reading is an argument of the
  function that takes it, and the armed timers are part of the state. *)

From Stdlib Require Import ZArith List Bool Lia Reals Lra.
From Stdlib Require String.
Import ListNotations.
Open Scope Z_scope.

(** ** The fragment of JavaScript values the code computes with *)

Module Js.

(** An integer-valued number, or [NaN]. *)
Inductive number := NaN | Int (z : Z).

(** What a property holding a time stamp or a value can contain. *)
Inductive value := Null | Undefined | Number (n : number).

(** The result of a division, which need not be an integer. *)
Inductive real := RNaN | PosInf | NegInf | Fin (r : R).

(** [ToNumber]: [null] is 0, [undefined] is [NaN]. *)
Definition ToNumber (v : value) : number :=
  match v with
  | Null => Int 0
  | Undefined => NaN
  | Number n => n
  end.

Definition add (a b : number) : number :=
  match a, b with
  | Int x, Int y => Int (x + y)
  | _, _ => NaN
  end.

Definition sub (a b : number) : number :=
  match a, b with
  | Int x, Int y => Int (x - y)
  | _, _ => NaN
  end.

(** [a > b]; any comparison with [NaN] is false. *)
Definition gt (a b : number) : bool :=
  match a, b with
  | Int x, Int y => y <? x
  | _, _ => false
  end.

(** [a / d] for a divisor [d] that is an integer: [0/0] is [NaN],
    [x/0] is an infinity of the sign of [x]. *)
Definition div (a : number) (d : Z) : real :=
  match a with
  | NaN => RNaN
  | Int n =>
      if d =? 0
      then (if n =? 0 then RNaN else if 0 <? n then PosInf else NegInf)
      else Fin (IZR n / IZR d)
  end.

(** Whether evaluating [a / d] divides by zero. *)
Definition divides_by_zero (d : Z) : bool := d =? 0.

(** ["number" == typeof v] *)
Definition is_number (v : value) : bool :=
  match v with
  | Number _ => true
  | _ => false
  end.

(** [c != v] for a property [c] and a number [v]: [null] and [undefined]
    differ from every number, and [NaN] differs from everything. *)
Definition neq (c : value) (v : number) : bool :=
  match c, v with
  | Number (Int x), Int y => negb (x =? y)
  | _, _ => true
  end.

(** [Math.floor] *)
Definition floor (r : R) : Z := Int_part r.

End Js.

(** ** ip.js *)

Module Ip.
Import Js.

(** The [repeat] option, by the [typeof] cases [reset] distinguishes. *)
Inductive repeat_t := RepBool (b : bool) | RepNum (n : Z) | RepOther.

(** The options after the constructor has filled in the defaults.  The
    callbacks [each], [update] and [end] are opaque to the embedding: a
    field says whether the callback is set, and an invocation is recorded
    as an [event]. *)
Record Options := {
  duration : Z;
  repeat : repeat_t;
  roundtrip : bool;
  easing : R -> R;
  each : bool;
  update : bool;
  on_end : bool
}.

(** The options object a caller passes: any key may be absent. *)
Record UserOptions := {
  u_duration : option Z;
  u_repeat : option repeat_t;
  u_roundtrip : option bool;
  u_easing : option (R -> R);
  u_each : bool;
  u_update : bool;
  u_end : bool
}.

Definition noOptions : UserOptions :=
  {| u_duration := None; u_repeat := None; u_roundtrip := None;
     u_easing := None; u_each := false; u_update := false; u_end := false |}.

Definition default_easing (pos : R) : R := (- cos (pos * PI) / 2 + 0.5)%R.

Definition defaultOptions : Options :=
  {| duration := 1000;
     repeat := RepBool false;
     roundtrip := false;
     easing := default_easing;
     each := false;
     update := false;
     on_end := false |}.

Definition from_option {A} (d : A) (o : option A) : A :=
  match o with Some a => a | None => d end.

(** The loop of the constructor over [defaultOptions]. *)
Definition merge (u : UserOptions) : Options :=
  {| duration := from_option (duration defaultOptions) (u_duration u);
     repeat := from_option (repeat defaultOptions) (u_repeat u);
     roundtrip := from_option (roundtrip defaultOptions) (u_roundtrip u);
     easing := from_option (easing defaultOptions) (u_easing u);
     each := u_each u;
     update := u_update u;
     on_end := u_end u |}.

Inductive phase_t := PhaseUnset | Phase1 | Phase2.

(** The instance.  [interval] is the handle last returned by
    [setInterval]. *)
Record Instance := {
  options : Options;
  from : number;
  to : number;
  phase : phase_t;
  _start : value;
  end_ : value;
  curr : value;
  interval : option nat;
  paused : bool;
  running : bool;
  _firstStart : value;
  tripNr : Z;
  wantedTrips : Z;
  _ts : value
}.

(** A callback invocation. *)
Inductive event :=
| Each (v : number)
| Update (v : number)
| End (firstStart : value).

(** The instance together with its environment: the interval timers that
    are armed (all of them run [work] on this instance), the next fresh
    timer handle, and the callbacks invoked so far, oldest first. *)
Record World := {
  self : Instance;
  armed : list nat;
  fresh : nat;
  log : list event
}.

(** *** Field updates *)

Definition set_from v (i : Instance) : Instance :=
  {| options := options i; from := v; to := to i; phase := phase i;
     _start := _start i; end_ := end_ i; curr := curr i;
     interval := interval i; paused := paused i; running := running i;
     _firstStart := _firstStart i; tripNr := tripNr i;
     wantedTrips := wantedTrips i; _ts := _ts i |}.

Definition set_to v (i : Instance) : Instance :=
  {| options := options i; from := from i; to := v; phase := phase i;
     _start := _start i; end_ := end_ i; curr := curr i;
     interval := interval i; paused := paused i; running := running i;
     _firstStart := _firstStart i; tripNr := tripNr i;
     wantedTrips := wantedTrips i; _ts := _ts i |}.

Definition set_phase v (i : Instance) : Instance :=
  {| options := options i; from := from i; to := to i; phase := v;
     _start := _start i; end_ := end_ i; curr := curr i;
     interval := interval i; paused := paused i; running := running i;
     _firstStart := _firstStart i; tripNr := tripNr i;
     wantedTrips := wantedTrips i; _ts := _ts i |}.

Definition set_start v (i : Instance) : Instance :=
  {| options := options i; from := from i; to := to i; phase := phase i;
     _start := v; end_ := end_ i; curr := curr i;
     interval := interval i; paused := paused i; running := running i;
     _firstStart := _firstStart i; tripNr := tripNr i;
     wantedTrips := wantedTrips i; _ts := _ts i |}.

Definition set_end v (i : Instance) : Instance :=
  {| options := options i; from := from i; to := to i; phase := phase i;
     _start := _start i; end_ := v; curr := curr i;
     interval := interval i; paused := paused i; running := running i;
     _firstStart := _firstStart i; tripNr := tripNr i;
     wantedTrips := wantedTrips i; _ts := _ts i |}.

Definition set_curr v (i : Instance) : Instance :=
  {| options := options i; from := from i; to := to i; phase := phase i;
     _start := _start i; end_ := end_ i; curr := v;
     interval := interval i; paused := paused i; running := running i;
     _firstStart := _firstStart i; tripNr := tripNr i;
     wantedTrips := wantedTrips i; _ts := _ts i |}.

Definition set_interval v (i : Instance) : Instance :=
  {| options := options i; from := from i; to := to i; phase := phase i;
     _start := _start i; end_ := end_ i; curr := curr i;
     interval := v; paused := paused i; running := running i;
     _firstStart := _firstStart i; tripNr := tripNr i;
     wantedTrips := wantedTrips i; _ts := _ts i |}.

Definition set_paused v (i : Instance) : Instance :=
  {| options := options i; from := from i; to := to i; phase := phase i;
     _start := _start i; end_ := end_ i; curr := curr i;
     interval := interval i; paused := v; running := running i;
     _firstStart := _firstStart i; tripNr := tripNr i;
     wantedTrips := wantedTrips i; _ts := _ts i |}.

Definition set_running v (i : Instance) : Instance :=
  {| options := options i; from := from i; to := to i; phase := phase i;
     _start := _start i; end_ := end_ i; curr := curr i;
     interval := interval i; paused := paused i; running := v;
     _firstStart := _firstStart i; tripNr := tripNr i;
     wantedTrips := wantedTrips i; _ts := _ts i |}.

Definition set_firstStart v (i : Instance) : Instance :=
  {| options := options i; from := from i; to := to i; phase := phase i;
     _start := _start i; end_ := end_ i; curr := curr i;
     interval := interval i; paused := paused i; running := running i;
     _firstStart := v; tripNr := tripNr i;
     wantedTrips := wantedTrips i; _ts := _ts i |}.

Definition set_tripNr v (i : Instance) : Instance :=
  {| options := options i; from := from i; to := to i; phase := phase i;
     _start := _start i; end_ := end_ i; curr := curr i;
     interval := interval i; paused := paused i; running := running i;
     _firstStart := _firstStart i; tripNr := v;
     wantedTrips := wantedTrips i; _ts := _ts i |}.

Definition set_wantedTrips v (i : Instance) : Instance :=
  {| options := options i; from := from i; to := to i; phase := phase i;
     _start := _start i; end_ := end_ i; curr := curr i;
     interval := interval i; paused := paused i; running := running i;
     _firstStart := _firstStart i; tripNr := tripNr i;
     wantedTrips := v; _ts := _ts i |}.

Definition set_ts v (i : Instance) : Instance :=
  {| options := options i; from := from i; to := to i; phase := phase i;
     _start := _start i; end_ := end_ i; curr := curr i;
     interval := interval i; paused := paused i; running := running i;
     _firstStart := _firstStart i; tripNr := tripNr i;
     wantedTrips := wantedTrips i; _ts := v |}.

(** Apply an update to the instance of a world. *)
Definition on_self (f : Instance -> Instance) (w : World) : World :=
  {| self := f (self w); armed := armed w; fresh := fresh w; log := log w |}.

(** Record a callback invocation. *)
Definition emit (e : event) (w : World) : World :=
  {| self := self w; armed := armed w; fresh := fresh w;
     log := log w ++ [e] |}.

(** *** The timers *)

(** [clearInterval(h)]: disarm the timer [h]; [clearInterval(null)] does
    nothing. *)
Definition clearInterval (h : option nat) (w : World) : World :=
  match h with
  | None => w
  | Some n =>
      {| self := self w;
         armed := filter (fun m => negb (Nat.eqb m n)) (armed w);
         fresh := fresh w; log := log w |}
  end.

(** [instance.interval = setInterval(function () {work(instance);}, 16)] *)
Definition setInterval (w : World) : World :=
  {| self := set_interval (Some (fresh w)) (self w);
     armed := armed w ++ [fresh w];
     fresh := S (fresh w); log := log w |}.

(** *** The functions of ip.js *)

Definition switchPhase (i : Instance) : Instance :=
  let tmp := to i in
  let i := set_to (from i) i in
  let i := set_from tmp i in
  set_phase (match phase i with Phase2 => Phase1 | _ => Phase2 end) i.

Definition checkEnd (w : World) : World :=
  if on_end (options (self w)) then emit (End (_firstStart (self w))) w
  else w.

Definition checkUpdate (v : number) (w : World) : World :=
  if neq (curr (self w)) v
  then emit (Update v) (on_self (set_curr (Number v)) w)
  else w.

Definition reset (i : Instance) : Instance :=
  let i := set_start Null i in
  let i := set_end Null i in
  let i := set_curr Null i in
  let i := set_interval None i in
  let i := set_paused false i in
  let i := set_running false i in
  let i := set_firstStart Undefined i in
  let i := set_tripNr 0 i in
  let i := set_wantedTrips 1 i in
  match repeat (options i) with
  | RepBool b => set_wantedTrips (if b then -1 else 1) i
  | RepNum n => if 0 <? n then set_wantedTrips (n + 1) i else i
  | RepOther => i
  end.

Definition doStart (w : World) : World :=
  on_self (set_running true) (setInterval w).

(** [start()]; [ts] is what [getTs()] returns if it is called. *)
Definition start (ts : Z) (w : World) : World :=
  if running (self w) then w
  else
    let w := if is_number (_firstStart (self w)) then w
             else on_self (set_firstStart (Number (Int ts))) w in
    let w := on_self (set_start (Number (Int ts))) w in
    let w := on_self (fun i =>
               set_end (Number (add (ToNumber (_start i))
                                    (Int (duration (options i))))) i) w in
    doStart w.

Definition pause (ts : Z) (w : World) : World :=
  if paused (self w) then w
  else
    let w := on_self (set_paused true) w in
    let w := on_self (set_running false) w in
    on_self (fun i =>
      set_ts (Number (sub (Int ts) (ToNumber (_start i)))) i) w.

Definition resume (ts : Z) (w : World) : World :=
  if negb (paused (self w)) then w
  else
    let w := on_self (set_paused false) w in
    let w := on_self (set_running true) w in
    let w := on_self (fun i =>
               set_start (Number (sub (Int ts) (ToNumber (_ts i)))) i) w in
    let w := on_self (fun i =>
               set_end (Number (add (ToNumber (_start i))
                                    (Int (duration (options i))))) i) w in
    let w := on_self (set_ts Undefined) w in
    doStart w.

Definition stop (w : World) : World :=
  if negb (running (self w)) then w
  else
    let w := checkEnd w in
    let w := clearInterval (interval (self w)) w in
    on_self reset w.

(** [roundtrip(instance)]; [ts] is the clock reading of the [start()]. *)
Definition do_roundtrip (ts : Z) (w : World) : World :=
  start ts (on_self switchPhase w).

(** [checkTripFinished(instance, now)]; [ts] is the clock reading of the
    [start()] of the next trip, taken after [now]. *)
Definition checkTripFinished (now ts : Z) (w : World) : World :=
  if gt (Int now) (ToNumber (end_ (self w))) then
    let w := clearInterval (interval (self w)) w in
    let w := on_self (set_running false) w in
    if roundtrip (options (self w))
       && negb (match phase (self w) with Phase2 => true | _ => false end)
    then do_roundtrip ts w
    else if wantedTrips (self w) =? -1 then
      let w := if roundtrip (options (self w))
               then on_self switchPhase w else w in
      start ts w
    else
      let w := on_self (fun i => set_tripNr (tripNr i + 1) i) w in
      if tripNr (self w) <? wantedTrips (self w) then
        let w := if roundtrip (options (self w))
                 then on_self switchPhase w else w in
        start ts w
      else checkEnd w
  else w.

(** [pos] as [work] computes it at the clock reading [now]. *)
Definition position (i : Instance) (now : Z) : real :=
  if gt (Int now) (ToNumber (end_ i)) then Fin 1
  else div (sub (Int now) (ToNumber (_start i))) (duration (options i)).

(** [Math.floor(from + (to-from) * easing(pos))].  The easing function is
    applied to finite positions; at a position that is not finite the
    value is [NaN], as it is with [Math.cos] and with arithmetic on it.
    The arithmetic is that of the real numbers, where the code computes
    with doubles: inside a trip the two can differ by one, where the real
    value is an integer and the double falls just short of it (half way
    from 0 to 100 the default easing gives 50 here and 49 there); at
    position 1, and in the bounds [from] and [to], they agree. *)
Definition interpolate (i : Instance) (pos : real) : number :=
  match pos, from i, to i with
  | Fin p, Int f, Int t =>
      Int (floor (IZR f + (IZR t - IZR f) * easing (options i) p))
  | _, _, _ => NaN
  end.

(** [work(instance)]: one firing of an interval timer. *)
Definition work (now ts : Z) (w : World) : World :=
  if paused (self w) then clearInterval (interval (self w)) w
  else
    let value := interpolate (self w) (position (self w) now) in
    let w := if each (options (self w)) then emit (Each value) w else w in
    let w := if update (options (self w)) then checkUpdate value w else w in
    checkTripFinished now ts w.

(** [new Ip(from, to, options)] *)
Definition create (f t : number) (u : UserOptions) : World :=
  {| self := reset
       {| options := merge u; from := f; to := t; phase := PhaseUnset;
          _start := Undefined; end_ := Undefined; curr := Undefined;
          interval := None; paused := false; running := false;
          _firstStart := Undefined; tripNr := 0; wantedTrips := 0;
          _ts := Undefined |};
     armed := []; fresh := 0; log := [] |}.

(** *** Runs *)

(** What can happen to an instance: a call of its API at some clock
    reading, or the firing of one of its timers.  [Tick now ts] reads the
    clock as [now] in [work] and as [ts] in the [start()] of the next trip,
    if there is one.  No timer fires when none is armed. *)
Inductive op :=
| Start (ts : Z)
| Pause (ts : Z)
| Resume (ts : Z)
| Stop
| Tick (now ts : Z).

Definition step (o : op) (w : World) : World :=
  match o with
  | Start ts => start ts w
  | Pause ts => pause ts w
  | Resume ts => resume ts w
  | Stop => stop w
  | Tick now ts =>
      match armed w with
      | [] => w
      | _ :: _ => work now ts w
      end
  end.

Definition run (ops : list op) (w : World) : World :=
  fold_left (fun w o => step o w) ops w.

(** *** Observations on runs *)

(** The timer firings [Tick now ts] of a list of clock readings. *)
Definition ticks (l : list (Z * Z)) : list op :=
  map (fun p => Tick (fst p) (snd p)) l.

(** The arguments of the [end] callback, one per invocation. *)
Definition ends (l : list event) : list value :=
  flat_map (fun e => match e with End v => [v] | _ => [] end) l.

(** The values passed to [each] and [update]. *)
Definition values (l : list event) : list number :=
  flat_map (fun e =>
    match e with Each v => [v] | Update v => [v] | End _ => [] end) l.

(** The callbacks invoked by one operation. *)
Definition emitted (o : op) (w : World) : list event :=
  skipn (length (log w)) (log (step o w)).

(** The operation is a timer firing in which [checkTripFinished] finds
    the trip finished: [work] runs, is not stopped by [checkPaused], and
    [now > instance.end]. *)
Definition finishes (w : World) (o : op) : bool :=
  match o with
  | Tick now _ =>
      match armed w with
      | [] => false
      | _ :: _ =>
          negb (paused (self w))
          && gt (Int now) (ToNumber (end_ (self w)))
      end
  | _ => false
  end.

(** The number of trips (legs, under [roundtrip]) finished in a run. *)
Fixpoint trips (ops : list op) (w : World) : nat :=
  match ops with
  | [] => O
  | o :: ops' =>
      ((if finishes w o then 1 else 0) + trips ops' (step o w))%nat
  end.

(** Whether [work], at the clock reading [now], evaluates the division
    [(now - _start) / duration] with a zero divisor. *)
Definition pos_divides_by_zero (i : Instance) (now : Z) : bool :=
  negb (gt (Int now) (ToNumber (end_ i)))
  && divides_by_zero (duration (options i)).

Definition is_stop (o : op) : bool :=
  match o with Stop => true | _ => false end.

(** The flags [paused] and [running] exclude each other. *)
Definition exclusive (w : World) : Prop :=
  paused (self w) = true -> running (self w) = false.

(** No [start()] of the run is called on a paused instance. *)
Fixpoint no_start_while_paused (ops : list op) (w : World) : Prop :=
  match ops with
  | [] => True
  | o :: ops' =>
      (match o with
       | Start _ => paused (self w) = false
       | _ => True
       end) /\ no_start_while_paused ops' (step o w)
  end.

(** The options of the usage example, with an [end] callback. *)
Definition demo : UserOptions :=
  {| u_duration := Some 500; u_repeat := None; u_roundtrip := None;
     u_easing := None; u_each := false; u_update := true; u_end := true |}.

(** The values passed to [update], oldest first. *)
Definition updated_values (l : list event) : list number :=
  flat_map (fun e => match e with Update v => [v] | _ => [] end) l.

(** No value of the list equals its successor, in the sense of [!=]. *)
Fixpoint changing (l : list number) : bool :=
  match l with
  | a :: ((b :: _) as tl) => neq (Number a) b && changing tl
  | _ => true
  end.

(** A single trip with [update] and [end] set, all else by default. *)
Definition one_trip (d : Z) : UserOptions :=
  {| u_duration := Some d; u_repeat := None; u_roundtrip := None;
     u_easing := None; u_each := false; u_update := true; u_end := true |}.

(** The same with a duration of zero. *)
Definition zero_duration : UserOptions :=
  {| u_duration := Some 0; u_repeat := None; u_roundtrip := None;
     u_easing := None; u_each := false; u_update := true; u_end := true |}.

(** Two repeats, an [end] callback, no [each] and no [update]. *)
Definition two_repeats : UserOptions :=
  {| u_duration := Some 500; u_repeat := Some (RepNum 2);
     u_roundtrip := None; u_easing := None; u_each := false;
     u_update := false; u_end := true |}.

(** A single trip with an [end] callback and no value callback:
    [repeat] is [false]. *)
Definition single_trip : UserOptions :=
  {| u_duration := Some 500; u_repeat := Some (RepBool false);
     u_roundtrip := None; u_easing := None; u_each := false;
     u_update := false; u_end := true |}.

(** An easing function that does not end at 1. *)
Definition half_way (pos : R) : R := (pos / 2)%R.

(** [repeat: true, roundtrip: true] with that easing function and an
    [each] callback. *)
Definition timid : UserOptions :=
  {| u_duration := Some 500; u_repeat := Some (RepBool true);
     u_roundtrip := Some true; u_easing := Some half_way; u_each := true;
     u_update := false; u_end := false |}.

(** A stage of a run that is under way: a timer firing, or a pause that
    lasts until the timer has fired, that is [pause()] at [t1], the firing
    that finds the instance paused and disarms the timer (it returns
    before it reads the clock), and [resume()] at [t2]. *)
Inductive stage := Fire (now ts : Z) | Rest (t1 t2 : Z).

Definition stage_ops (s : stage) : list op :=
  match s with
  | Fire now ts => [Tick now ts]
  | Rest t1 t2 => [Pause t1; Tick t1 t1; Resume t2]
  end.

Definition stages (l : list stage) : list op := flat_map stage_ops l.

(** The firings [Fire now ts] of a list of clock readings. *)
Definition firings (tk : list (Z * Z)) : list stage :=
  map (fun p => Fire (fst p) (snd p)) tk.

(** What the clock readings alone say of the stages [l]: how many of
    the firings read the clock past the end of the trip under way, when
    that trip ends at [e], each such firing starts the next trip, of
    duration [d], at its second clock reading, and each pause puts the end
    of the trip off by its length. *)
Fixpoint overdue (d e : Z) (l : list stage) : nat :=
  match l with
  | [] => O
  | Fire now ts :: l' =>
      if e <? now then S (overdue d (ts + d) l') else overdue d e l'
  | Rest t1 t2 :: l' => overdue d (e + (t2 - t1)) l'
  end.

(** The number of trips [reset] derives from the [repeat] option, when
    it is finite. *)
Definition trips_wanted (r : repeat_t) : option Z :=
  match r with
  | RepBool true => None
  | RepBool false => Some 1
  | RepNum n => Some (if 0 <? n then 1 + n else 1)
  | RepOther => Some 1
  end.

(** *** Invariants of runs *)

(** The instance is on a trip that ends at [e], after a first [start()]
    at [ts0]: it is running, exactly the timer [interval] is armed, and
    [end] has not been invoked. *)
Definition on_trip (o : Options) (ts0 e : Z) (w : World) : Prop :=
  options (self w) = o /\
  paused (self w) = false /\
  running (self w) = true /\
  _firstStart (self w) = Number (Int ts0) /\
  (exists h, interval (self w) = Some h /\ armed w = [h]) /\
  _start (self w) = Number (Int (e - duration o)) /\
  end_ (self w) = Number (Int e) /\
  ends (log w) = [].

(** Where an instance created from [f] to [t] stands under [roundtrip]
    after [k] finished legs: outbound after an even number, on its way
    back after an odd number. *)
Definition leg_state (f t : number) (k : nat) (w : World) : Prop :=
  if Nat.even k
  then from (self w) = f /\ to (self w) = t /\ phase (self w) <> Phase2
  else from (self w) = t /\ to (self w) = f /\ phase (self w) = Phase2.

(** An endless [roundtrip] run: the options are [o], no trip has been
    counted, [end] has not been invoked. *)
Definition shuttling (o : Options) (f t : number) (k : nat) (w : World)
  : Prop :=
  options (self w) = o /\
  wantedTrips (self w) = -1 /\
  tripNr (self w) = 0 /\
  ends (log w) = [] /\
  leg_state f t k w.

(** [repeat: true, roundtrip: true], with both value callbacks. *)
Definition back_and_forth : UserOptions :=
  {| u_duration := Some 500; u_repeat := Some (RepBool true);
     u_roundtrip := Some true; u_easing := None; u_each := true;
     u_update := true; u_end := true |}.

(** What a variable that [update] assigns holds after the callbacks
    [es], if it held [x] before. *)
Definition last_update (es : list event) (x : number) : number :=
  fold_left (fun x e => match e with Update v => v | _ => x end) es x.

(** A single trip from [f] to [t] that ends at [e], with [update]
    assigning a variable that now holds [x]: whenever the instance
    remembers a value in [curr], it is the one the variable holds. *)
Definition travelling (f t e : Z) (x : number) (w : World) : Prop :=
  easing (options (self w)) 1 = 1%R /\
  each (options (self w)) = false /\
  update (options (self w)) = true /\
  roundtrip (options (self w)) = false /\
  from (self w) = Int f /\
  to (self w) = Int t /\
  paused (self w) = false /\
  running (self w) = true /\
  tripNr (self w) = 0 /\
  wantedTrips (self w) = 1 /\
  end_ (self w) = Number (Int e) /\
  (exists h, interval (self w) = Some h /\ armed w = [h]) /\
  (forall v, curr (self w) = Number v -> x = v).

(** All wanted trips are finished: no timer is armed and [end], if set,
    has been invoked once, with the time of the first [start()]. *)
Definition finished (o : Options) (ts0 : Z) (w : World) : Prop :=
  options (self w) = o /\
  armed w = [] /\
  ends (log w) = if on_end o then [Number (Int ts0)] else [].

End Ip.

(** ** sslider.js *)

Module Sslider.
Import Js.

(** The options after [defaultOptions.merge]. *)
Record Options := {
  width : Z;
  height : Z;
  userNav : bool;
  auto : bool;
  interval : Z;
  duration : Z;
  legend : bool;
  legendActive : bool
}.

Definition defaultOptions : Options :=
  {| width := 300; height := 250; userNav := true; auto := false;
     interval := 3000; duration := 300; legend := true;
     legendActive := true |}.

(** [sslider._state]; [timer] is the handle last returned by
    [setTimeout]. *)
Record State := {
  currentIdx : Z;
  left : number;
  timer : option nat;
  autoDir : Z;
  userNavActive : bool
}.

(** The widget and its environment.  [legend_items] holds, for each item
    of [sslider.legend], whether its class name is ["selected"].  [runs]
    are the interpolators [animate] has created, each with its own timers
    and with [update] bound to [setLeftPos].  [timeouts] are the armed
    [setTimeout] callbacks of [autoMove], each with the [nextIdx] its
    closure captured. *)
Record Slider := {
  options : Options;
  maxIdx : Z;
  _state : State;
  legend_items : list bool;
  runs : list Ip.World;
  timeouts : list (nat * Z);
  fresh : nat
}.

(** What a method returns: the instance, or [undefined]. *)
Inductive result := RetUndefined | RetSlider.

(** The outcome of a chain of method calls [s.m1().m2()...]: what the
    last call returned, or the [TypeError] of calling a method on
    [undefined]. *)
Inductive outcome :=
| Returned (s : Slider) (r : result)
| TypeError (s : Slider).

Definition set_state (st : State) (s : Slider) : Slider :=
  {| options := options s; maxIdx := maxIdx s; _state := st;
     legend_items := legend_items s; runs := runs s;
     timeouts := timeouts s; fresh := fresh s |}.

Definition set_currentIdx v (st : State) : State :=
  {| currentIdx := v; left := left st; timer := timer st;
     autoDir := autoDir st; userNavActive := userNavActive st |}.

Definition set_left v (st : State) : State :=
  {| currentIdx := currentIdx st; left := v; timer := timer st;
     autoDir := autoDir st; userNavActive := userNavActive st |}.

Definition set_timer v (st : State) : State :=
  {| currentIdx := currentIdx st; left := left st; timer := v;
     autoDir := autoDir st; userNavActive := userNavActive st |}.

Definition set_autoDir v (st : State) : State :=
  {| currentIdx := currentIdx st; left := left st; timer := timer st;
     autoDir := v; userNavActive := userNavActive st |}.

Definition set_legend_items v (s : Slider) : Slider :=
  {| options := options s; maxIdx := maxIdx s; _state := _state s;
     legend_items := v; runs := runs s;
     timeouts := timeouts s; fresh := fresh s |}.

Definition set_runs v (s : Slider) : Slider :=
  {| options := options s; maxIdx := maxIdx s; _state := _state s;
     legend_items := legend_items s; runs := v;
     timeouts := timeouts s; fresh := fresh s |}.

Definition set_auto v (s : Slider) : Slider :=
  {| options :=
       {| width := width (options s); height := height (options s);
          userNav := userNav (options s); auto := v;
          interval := interval (options s);
          duration := duration (options s);
          legend := legend (options s);
          legendActive := legendActive (options s) |};
     maxIdx := maxIdx s; _state := _state s;
     legend_items := legend_items s; runs := runs s;
     timeouts := timeouts s; fresh := fresh s |}.

(** [setLeftPos(sslider, val)]; the style of the list element follows
    [_state.left]. *)
Definition setLeftPos (val : number) (s : Slider) : Slider :=
  set_state (set_left val (_state s)) s.

(** [clearTimeout(h)] *)
Definition clearTimeout (h : option nat) (s : Slider) : Slider :=
  match h with
  | None => s
  | Some n =>
      {| options := options s; maxIdx := maxIdx s; _state := _state s;
         legend_items := legend_items s; runs := runs s;
         timeouts :=
           filter (fun p => negb (Nat.eqb (fst p) n)) (timeouts s);
         fresh := fresh s |}
  end.

(** [_state.timer = setTimeout(function () {showIdx(nextIdx); ...}, ...)] *)
Definition setTimeout (nextIdx : Z) (s : Slider) : Slider :=
  {| options := options s; maxIdx := maxIdx s;
     _state := set_timer (Some (fresh s)) (_state s);
     legend_items := legend_items s; runs := runs s;
     timeouts := timeouts s ++ [(fresh s, nextIdx)];
     fresh := S (fresh s) |}.

(** The [update] callbacks of one firing of an interpolator's timer. *)
Definition deliver (es : list Ip.event) (s : Slider) : Slider :=
  fold_left (fun s e =>
    match e with
    | Ip.Update v => setLeftPos v s
    | _ => s
    end) es s.

(** The fields of a new slider, before the constructor shows index 0. *)
Definition blank (images : nat) (o : Options) : Slider :=
  {| options := o;
     maxIdx := Z.of_nat images - 1;
     _state := {| currentIdx := 0; left := Int 0; timer := None;
                  autoDir := 1; userNavActive := false |};
     legend_items := if legend o then repeat false images else [];
     runs := []; timeouts := []; fresh := 0 |}.

Definition unarmed (w : Ip.World) : bool :=
  match Ip.armed w with [] => true | _ => false end.

Section Strategy.

(** Chosen once, when the script is loaded: no CSS transitions and
    ip.js present. *)
Variable useJsInterpolation : bool.

(** [animate(sslider, offset)]; [ts] is the clock reading of the
    interpolator's [start()], taken only under [useJsInterpolation]. *)
Definition animate (ts : Z) (offset : Z) (s : Slider) : Slider :=
  if useJsInterpolation then
    let u :=
      {| Ip.u_duration := Some (duration (options s));
         Ip.u_repeat := None; Ip.u_roundtrip := None;
         Ip.u_easing := None; Ip.u_each := false;
         Ip.u_update := true; Ip.u_end := false |} in
    let w := Ip.start ts (Ip.create (left (_state s)) (Int offset) u) in
    set_runs (runs s ++ [w]) s
  else setLeftPos (Int offset) s.

Definition showIdx (ts : Z) (idx : Z) (s : Slider) : Slider * result :=
  if (idx <? 0) || (maxIdx s <? idx) then (s, RetUndefined)
  else
    let offset := -1 * idx * width (options s) in
    let s := animate ts offset s in
    let s := set_state (set_currentIdx idx (_state s)) s in
    let s :=
      if legend (options s)
      then set_legend_items
             (map (fun idx2 => Z.of_nat idx2 =? idx)
                  (seq 0 (length (legend_items s)))) s
      else s in
    (s, RetSlider).

Definition prev (ts : Z) (s : Slider) : Slider * result :=
  showIdx ts (currentIdx (_state s) - 1) s.

Definition next (ts : Z) (s : Slider) : Slider * result :=
  showIdx ts (currentIdx (_state s) + 1) s.

Definition autoMove (s : Slider) : Slider :=
  let nextIdx := currentIdx (_state s) + autoDir (_state s) in
  if (maxIdx s <? nextIdx) || (nextIdx <? 0) then
    let s := set_state (set_autoDir (autoDir (_state s) * -1) (_state s)) s in
    let nextIdx := currentIdx (_state s) + autoDir (_state s) in
    setTimeout nextIdx s
  else setTimeout nextIdx s.

(** [auto(auto)]; [None] is a call without an argument. *)
Definition do_auto (arg : option bool) (s : Slider) : Slider * result :=
  let auto := match arg with None => true | Some b => b end in
  let s := set_auto auto s in
  let s := if auto then autoMove s
           else clearTimeout (timer (_state s)) s in
  (s, RetSlider).

(** The timeout [h] expires: if it is armed, its callback runs
    [sslider.showIdx(nextIdx); autoMove(sslider);]. *)
Definition expire (ts : Z) (h : nat) (s : Slider) : Slider :=
  match find (fun p => Nat.eqb (fst p) h) (timeouts s) with
  | None => s
  | Some (_, nextIdx) =>
      let s := clearTimeout (Some h) s in
      let s := fst (showIdx ts nextIdx s) in
      autoMove s
  end.

(** The timeout [_state.timer] expires. *)
Definition autoStep (ts : Z) (s : Slider) : Slider :=
  match timer (_state s) with
  | None => s
  | Some h => expire ts h s
  end.

(** [new Sslider(images, options)], for [images.length] images and
    the merged options: the fields as first assigned, then
    [sslider.showIdx(0)] and [options.auto && sslider.auto()]. *)
Definition create (ts : Z) (images : nat) (o : Options) : Slider :=
  let s := blank images o in
  let s := fst (showIdx ts 0 s) in
  if auto (options s) then fst (do_auto None s) else s.

(** A chained call [....m()]. *)
Definition chain (m : Slider -> Slider * result) (o : outcome) : outcome :=
  match o with
  | Returned s RetSlider => let (s', r) := m s in Returned s' r
  | Returned s RetUndefined => TypeError s
  | TypeError s => TypeError s
  end.

Definition call (m : Slider -> Slider * result) (s : Slider) : outcome :=
  let (s', r) := m s in Returned s' r.

(** One firing of an interval timer of the [k]-th interpolator: [work]
    runs, and its [update] calls reach [setLeftPos]. *)
Definition ipTick (k : nat) (now ts : Z) (s : Slider) : Slider :=
  match nth_error (runs s) k with
  | None => s
  | Some w =>
      let w' := Ip.step (Ip.Tick now ts) w in
      let es := skipn (length (Ip.log w)) (Ip.log w') in
      deliver es (set_runs (firstn k (runs s) ++ w' :: skipn (S k) (runs s)) s)
  end.

Definition ipTicks (ticks : list (nat * Z * Z)) (s : Slider) : Slider :=
  fold_left (fun s t =>
    match t with (k, now, ts) => ipTick k now ts s end) ticks s.

(** No interpolator has a timer armed: every transition has ended. *)
Definition at_rest (s : Slider) : bool := forallb unarmed (runs s).

(** The indices [n] successive expirations of the auto timer show. *)
Fixpoint autoVisits (ts : Z) (n : nat) (s : Slider) : list Z :=
  match n with
  | O => []
  | S n =>
      let s := autoStep ts s in
      currentIdx (_state s) :: autoVisits ts n s
  end.

Fixpoint autoSteps (ts : Z) (n : nat) (s : Slider) : Slider :=
  match n with
  | O => s
  | S n => autoSteps ts n (autoStep ts s)
  end.

(** Five images, everything else by default. *)
Definition five (ts : Z) : Slider := create ts 5 defaultOptions.

(** What can happen to a slider once it is constructed: a call of its
    API, the expiry of a timeout of [autoMove], or the firing of a timer of
    one of its interpolators. *)
Inductive op :=
| ShowIdx (ts idx : Z)
| Prev (ts : Z)
| Next (ts : Z)
| Auto (arg : option bool)
| Expire (ts : Z) (h : nat)
| IpTick (k : nat) (now ts : Z).

Definition step (o : op) (s : Slider) : Slider :=
  match o with
  | ShowIdx ts idx => fst (showIdx ts idx s)
  | Prev ts => fst (prev ts s)
  | Next ts => fst (next ts s)
  | Auto arg => fst (do_auto arg s)
  | Expire ts h => expire ts h s
  | IpTick k now ts => ipTick k now ts s
  end.

Definition run (ops : list op) (s : Slider) : Slider :=
  fold_left (fun s o => step o s) ops s.

End Strategy.

(** The handles of the armed timeouts are older than the next fresh
    handle. *)
Definition timers_fresh (s : Slider) : bool :=
  forallb (fun p => Nat.ltb (fst p) (fresh s)) (timeouts s).

(** The slider during the transition that [showIdx(idx)] started from
    the offset [l] to the offset [off], ending at [e]: [old] are the
    interpolators of earlier transitions, all ended; the last
    interpolator is on its trip, or ([arrived]) has ended with the offset
    at [off]. *)
Definition transition (o : Options) (mx : Z) (old : list Ip.World)
    (idx l off e : Z) (arrived : bool) (s : Slider) : Prop :=
  options s = o /\
  maxIdx s = mx /\
  currentIdx (_state s) = idx /\
  forallb unarmed old = true /\
  exists w : Ip.World,
    runs s = old ++ [w] /\
    if arrived
    then Ip.armed w = [] /\ left (_state s) = Int off
    else Ip.travelling l off e (left (_state s)) w.

(** What holds of a slider of [n] images constructed with the options
    [o], whatever has happened to it since. *)
Definition sound (js : bool) (n : nat) (o : Options) (s : Slider) : Prop :=
  maxIdx s = Z.of_nat n - 1 /\
  0 <= currentIdx (_state s) <= maxIdx s /\
  (autoDir (_state s) = 1 \/ autoDir (_state s) = -1) /\
  width (options s) = width o /\
  legend (options s) = legend o /\
  timers_fresh s = true /\
  (legend o = true ->
   legend_items s =
     map (fun i => Z.of_nat i =? currentIdx (_state s)) (seq 0 n)) /\
  (js = false ->
   runs s = [] /\
   left (_state s) = Int (-1 * currentIdx (_state s) * width o)).

(** Whether [autoMove] reverses the direction: the next index would be
    above [maxIdx] or below 0. *)
Definition turns (s : Slider) : bool :=
  let nextIdx := currentIdx (_state s) + autoDir (_state s) in
  (maxIdx s <? nextIdx) || (nextIdx <? 0).

End Sslider.


(** ** The registry of sslider.js *)

Module Registry.
Import String.
Local Open Scope string_scope.

(** [generateId()]: ["sslider"] and the chunks of at most four characters
    of [hex], joined by ["-"].  [hex] stands for the hexadecimal digits of
    the time and of the random number; if it were empty, [match] would
    return [null], which [join] prints as the empty string. *)
Fixpoint chunks (fuel : nat) (s : string) : list string :=
  match fuel with
  | O => []
  | S fuel =>
      if s =? "" then []
      else substring 0 4 s :: chunks fuel (substring 4 (length s - 4) s)
  end.

Definition generateId (hex : string) : string :=
  if hex =? "" then concat "-" ["sslider"; ""]
  else concat "-" ("sslider" :: chunks (length hex) hex).

(** Hexadecimal digits, as [generateId] might draw them. *)
Definition some_hex : string := "51ab3f".

(** The names of the properties of [Object.prototype]. *)
Definition standard (id : string) : bool :=
  existsb (String.eqb id)
    ["constructor"; "hasOwnProperty"; "isPrototypeOf";
     "propertyIsEnumerable"; "toLocaleString"; "toString"; "valueOf";
     "__defineGetter__"; "__defineSetter__"; "__lookupGetter__";
     "__lookupSetter__"; "__proto__"].

(** Whether a string is truthy. *)
Definition truthy (s : string) : bool := negb (s =? "").

Section Objects.

(** The sliders, as the objects the registry refers to. *)
Variable W : Type.

(** Whether [Object.prototype] has a property of that name.  [objects]
    is created as [{}], so a lookup of such a name finds the inherited value
    when the registry holds no slider under it.  One of these names is
    special: where [Object.prototype] has [__proto__], it is an accessor,
    so that [objects["__proto__"] = w] adds no property but makes [w] the
    prototype of [objects], [objects["__proto__"]] reads that prototype
    back, and [delete objects["__proto__"]] finds no property to delete. *)
Variable inherited : string -> bool.

(** [objects]: container id => slider widget.  [entries] are the
    sliders assigned under a name and not deleted since.  [prototype] is
    the slider last assigned under the name [__proto__], if any: with the
    accessor, that slider is the prototype of [objects] and the entry of
    that name does not exist; without it, the entry is a property like any
    other and the prototype is still [Object.prototype].  A lookup tells
    the two apart, see [get]. *)
Record objects := {
  entries : string -> option W;
  prototype : option W
}.

Definition empty : objects :=
  {| entries := fun _ => None; prototype := None |}.

(** [objects[id] = w] *)
Definition assign (id : string) (w : W) (o : objects) : objects :=
  {| entries := fun k => if k =? id then Some w else entries o k;
     prototype := if id =? "__proto__" then Some w else prototype o |}.

(** [delete objects[id]] *)
Definition delete (id : string) (o : objects) : objects :=
  {| entries := fun k => if k =? id then None else entries o k;
     prototype := prototype o |}.

(** What [objects[id]] evaluates to: the slider [w] (a property of
    [objects], or its prototype read through [__proto__]); a value of
    [Object.prototype]; [undefined]; or, when the slider [w] has become the
    prototype of [objects] and [objects] has no property of that name,
    whatever [w], [Sslider.prototype] and [Object.prototype] have under it,
    which is never a slider. *)
Inductive found := Own (w : W) | Inherited | Undefined | Through (w : W).

(** [registry.get(elem)], for the id [elem] is or has. *)
Definition get (id : string) (o : objects) : found :=
  if inherited "__proto__" then
    if id =? "__proto__" then
      match prototype o with
      | Some w => Own w
      | None => Inherited
      end
    else
      match entries o id, prototype o with
      | Some w, _ => Own w
      | None, Some w => Through w
      | None, None => if inherited id then Inherited else Undefined
      end
  else
    match entries o id with
    | Some w => Own w
    | None => if inherited id then Inherited else Undefined
    end.

(** [registry.put(sslider)] for the slider [w] whose container has the id
    [cid]; [hex] is what [generateId] draws if it is called.  The result is
    the id of the container afterwards, and the registry. *)
Definition put (hex : string) (w : W) (cid : string) (o : objects)
  : string * objects :=
  let cid := if truthy cid then cid else generateId hex in
  (cid, assign cid w o).

(** [registry.remove(sslider)]: the id of a container is a string, never
    [undefined], so the [delete] is always evaluated. *)
Definition remove (cid : string) (o : objects) : objects :=
  delete cid o.

End Objects.

Arguments entries {W} o.
Arguments prototype {W} o.
Arguments Own {W} w.
Arguments Inherited {W}.
Arguments Undefined {W}.
Arguments Through {W} w.

End Registry.

(** ** The page: a slider, the registry and the input handlers *)

Module Page.
Import Js Sslider.

(** The callbacks of the timeouts armed without keeping a handle: the one
    of [preventRuthlessNavigation] and the one of [pauseAutoMoving]. *)
Inductive callback := Unlock | ResumeAuto.

(** The default options with automatic cycling switched on. *)
Definition cyclingOptions : Options :=
  {| width := 300; height := 250; userNav := true; auto := true;
     interval := 3000; duration := 300; legend := true;
     legendActive := true |}.

(** No container is named like a property of [Object.prototype]. *)
Definition plain (id : String.string) : bool := false.

(** A page with one slider: the slider, the id of its container, the
    registry, and the timeouts that are pending. *)
Record Page := {
  widget : Slider;
  container_id : String.string;
  registered : Registry.objects unit;
  pending : list callback
}.

Definition set_widget (s : Slider) (p : Page) : Page :=
  {| widget := s; container_id := container_id p;
     registered := registered p; pending := pending p |}.

Definition set_userNavActive (v : bool) (s : Slider) : Slider :=
  set_state
    {| currentIdx := currentIdx (_state s); left := left (_state s);
       timer := timer (_state s); autoDir := autoDir (_state s);
       userNavActive := v |} s.

(** [setTimeout(callback, ...)], the handle dropped. *)
Definition later (c : callback) (p : Page) : Page :=
  {| widget := widget p; container_id := container_id p;
     registered := registered p; pending := pending p ++ [c] |}.

(** [preventRuthlessNavigation(sslider)]: the page afterwards, and whether
    the result is truthy. *)
Definition preventRuthlessNavigation (p : Page) : Page * bool :=
  if userNavActive (_state (widget p)) then (p, true)
  else
    let p := later Unlock p in
    (set_widget (set_userNavActive true (widget p)) p, false).

Definition pauseAutoMoving (p : Page) : Page :=
  if auto (options (widget p)) then
    let s := set_auto false (widget p) in
    let s := clearTimeout (timer (_state s)) s in
    later ResumeAuto (set_widget s p)
  else p.

Section Strategy.

Variable useJsInterpolation : bool.

(** Whether [Object.prototype] has a property of that name. *)
Variable inherited : String.string -> bool.

(** [sslider.create(images, options)]: the constructor, then
    [!!sslider.options.userNav && registry.put(sslider)].  A new container
    has the empty id. *)
Definition create (ts : Z) (hex : String.string) (images : nat)
    (o : Options) : Page :=
  let s := Sslider.create useJsInterpolation ts images o in
  let r :=
    if userNav (options s)
    then Registry.put unit hex tt String.EmptyString (Registry.empty unit)
    else (String.EmptyString, Registry.empty unit) in
  {| widget := s; container_id := fst r; registered := snd r;
     pending := [] |}.

(** [userNav(enable)]; [None] is a call without an argument. *)
Definition userNav (hex : String.string) (arg : option bool) (p : Page)
  : Page :=
  let enable := match arg with None => true | Some b => b end in
  if enable then
    let r := Registry.put unit hex tt (container_id p) (registered p) in
    {| widget := widget p; container_id := fst r; registered := snd r;
       pending := pending p |}
  else
    {| widget := widget p; container_id := container_id p;
       registered := Registry.remove unit (container_id p) (registered p);
       pending := pending p |}.

(** [keys[keyCode]] *)
Inductive direction := DirPrev | DirNext.

Definition keys (keyCode : Z) : option direction :=
  if keyCode =? 37 then Some DirPrev
  else if keyCode =? 39 then Some DirNext
  else None.

(** The listener of [keyup], when the focus is inside the container of the
    slider (otherwise it returns at once).  A registry lookup that finds a
    value that is not a slider either finds a falsy one, and the listener
    does nothing, or makes [preventRuthlessNavigation] read a field of
    [undefined]: the listener ends with a [TypeError], nothing done. *)
Definition keyup (ts : Z) (keyCode : Z) (p : Page) : Page :=
  let sslider := Registry.get unit inherited (container_id p) (registered p) in
  match keys keyCode with
  | None => p
  | Some dir =>
      match sslider with
      | Registry.Undefined => p
      | Registry.Inherited => p
      | Registry.Through _ => p
      | Registry.Own _ =>
          let (p', locked) := preventRuthlessNavigation p in
          if locked then p'
          else
            let p' := pauseAutoMoving p' in
            let s :=
              match dir with
              | DirPrev => fst (prev useJsInterpolation ts (widget p'))
              | DirNext => fst (next useJsInterpolation ts (widget p'))
              end in
            set_widget s p'
      end
  end.

(** The listener of [click], when the target is the button of the legend
    of the slider whose value is [idx].  Without the [legend] option there
    is no such button. *)
Definition click (ts : Z) (idx : Z) (p : Page) : Page :=
  if negb (legend (options (widget p))) then p
  else
    match Registry.get unit inherited (container_id p) (registered p) with
    | Registry.Undefined => p
    | Registry.Inherited => p
    | Registry.Through _ => p
    | Registry.Own _ =>
        if negb (legendActive (options (widget p))) then p
        else
          let (p', locked) := preventRuthlessNavigation p in
          if locked then p'
          else
            let p' := pauseAutoMoving p' in
            set_widget (fst (showIdx useJsInterpolation ts idx (widget p'))) p'
    end.

(** The [k]-th pending timeout expires. *)
Definition fire (k : nat) (p : Page) : Page :=
  match nth_error (pending p) k with
  | None => p
  | Some c =>
      let p :=
        {| widget := widget p; container_id := container_id p;
           registered := registered p;
           pending := firstn k (pending p) ++ skipn (S k) (pending p) |} in
      match c with
      | Unlock => set_widget (set_userNavActive false (widget p)) p
      | ResumeAuto => set_widget (fst (do_auto None (widget p))) p
      end
  end.

(** What the user and the timers do to the page. *)
Inductive event :=
| KeyUp (ts keyCode : Z)
| Click (ts idx : Z)
| Fire (k : nat)
| AutoExpire (ts : Z) (h : nat)
| InterpolatorTick (k : nat) (now ts : Z).

Definition handle (e : event) (p : Page) : Page :=
  match e with
  | KeyUp ts keyCode => keyup ts keyCode p
  | Click ts idx => click ts idx p
  | Fire k => fire k p
  | AutoExpire ts h =>
      set_widget (expire useJsInterpolation ts h (widget p)) p
  | InterpolatorTick k now ts => set_widget (ipTick k now ts (widget p)) p
  end.

Definition handle_all (es : list event) (p : Page) : Page :=
  fold_left (fun p e => handle e p) es p.

End Strategy.

(** How many timeouts with the callback [c] are pending. *)
Definition count (c : callback) (p : Page) : nat :=
  List.length (filter (fun c' =>
    match c, c' with
    | Unlock, Unlock => true
    | ResumeAuto, ResumeAuto => true
    | _, _ => false
    end) (pending p)).

(** The lock of user navigation is set exactly while its timeout is
    pending. *)
Definition lock_pending (p : Page) : Prop :=
  count Unlock p = if userNavActive (_state (widget p)) then 1%nat else 0%nat.

(** Automatic cycling that was switched on: either its timeout is armed,
    alone, or its resumption is pending, alone. *)
Definition cycling (p : Page) : Prop :=
  (auto (options (widget p)) = true /\
   (exists h n, timer (_state (widget p)) = Some h /\
                timeouts (widget p) = [(h, n)]) /\
   count ResumeAuto p = 0%nat) \/
  (auto (options (widget p)) = false /\
   timeouts (widget p) = [] /\
   count ResumeAuto p = 1%nat).

End Page.
(** * Properties of ip.js *)

Module IpFacts.
Import Js Ip.

(** ** Arithmetic of the easing function and of [Math.floor] *)

Lemma default_easing_0 : default_easing 0 = 0%R.
Proof.
  unfold default_easing. rewrite Rmult_0_l, cos_0. lra.
Qed.

Lemma default_easing_1 : default_easing 1 = 1%R.
Proof.
  unfold default_easing. rewrite Rmult_1_l, cos_PI. lra.
Qed.

Lemma default_easing_mono (a b : R) :
  (0 <= a)%R -> (a <= b)%R -> (b <= 1)%R ->
  (default_easing a <= default_easing b)%R.
Proof.
  intros Ha Hab Hb. unfold default_easing.
  pose proof PI_RGT_0 as Hpi.
  assert (cos (b * PI) <= cos (a * PI))%R.
  { apply cos_decr_1; nra. }
  lra.
Qed.

Lemma floor_IZR (z : Z) : floor (IZR z) = z.
Proof.
  unfold floor. symmetry. apply Int_part_spec. lra.
Qed.

(** At position 1 an easing function that ends at 1 yields [to]. *)
Lemma interpolate_at_1 (i : Instance) (f t : Z) :
  from i = Int f -> to i = Int t -> easing (options i) 1 = 1%R ->
  interpolate i (Fin 1) = Int t.
Proof.
  intros Hf Ht He. unfold interpolate. rewrite Hf, Ht, He.
  replace (IZR f + (IZR t - IZR f) * 1)%R with (IZR t) by lra.
  now rewrite floor_IZR.
Qed.

(** C9: the default easing function [pos => (-cos(pos*PI)/2) + 0.5],
    read over the real numbers, is 0 at 0, is 1 at 1, and is monotonically
    non-decreasing on the interval from 0 to 1. *)
Theorem default_easing_shape :
  default_easing 0 = 0%R /\
  default_easing 1 = 1%R /\
  (forall a b : R,
      (0 <= a)%R -> (a <= b)%R -> (b <= 1)%R ->
      (default_easing a <= default_easing b)%R).
Proof.
  split; [apply default_easing_0 | split; [apply default_easing_1 |]].
  exact default_easing_mono.
Qed.

Lemma default_easing_shape_witness :
  (default_easing (1/4) <= default_easing (3/4))%R.
Proof.
  apply (proj2 (proj2 default_easing_shape)); lra.
Defined.


(** ** [stop()], [pause()] and the two flags *)

Lemma stop_not_running (w : World) :
  running (self w) = false -> stop w = w.
Proof.
  intros H. unfold stop. now rewrite H.
Qed.

Lemma pause_clears_running (ts : Z) (w : World) :
  paused (self w) = false -> 
  paused (self (pause ts w)) = true /\ running (self (pause ts w)) = false.
Proof.
  intros H. unfold pause. rewrite H. now cbn.
Qed.

Lemma stop_running (w : World) :
  running (self w) = true ->
  log (stop w) =
    log w ++ (if on_end (options (self w))
              then [End (_firstStart (self w))] else []) /\
  self (stop w) = reset (self w) /\
  armed (stop w) = armed (clearInterval (interval (self w)) w).
Proof.
  destruct w as [[o f t ph s e c [h |] p r fs tn wt tsv] a n l];
    cbn; intros H; unfold stop, checkEnd; cbn; rewrite H; cbn;
    destruct (on_end o); cbn; rewrite ?app_nil_r; auto.
Qed.

(** C7, as the code has it: [stop()] on an instance that is not running
    does nothing, and [pause()] makes the instance not running, so
    [stop()] after a [pause()] that took effect invokes no callback and
    changes nothing; on a running instance [stop()] invokes [end] (if it is
    set) with [_firstStart], clears the current timer and resets the
    instance. *)
Theorem stop_paused_is_noop :
  (forall (w : World) (ts : Z),
      paused (self w) = false ->
      stop (pause ts w) = pause ts w) /\
  (forall w : World,
      running (self w) = true ->
      log (stop w) =
        log w ++ (if on_end (options (self w))
                  then [End (_firstStart (self w))] else []) /\
      self (stop w) = reset (self w) /\
      armed (stop w) = armed (clearInterval (interval (self w)) w)).
Proof.
  split.
  - intros w ts H. apply stop_not_running.
    now apply pause_clears_running.
  - exact stop_running.
Qed.

Lemma stop_paused_is_noop_witness :
  let w := start 1000 (create (Int 0) (Int 100) demo) in
  stop (pause 1010 w) = pause 1010 w /\
  log (stop w) = [End (Number (Int 1000))].
Proof.
  split.
  - apply (proj1 stop_paused_is_noop). vm_compute. reflexivity.
  - apply (proj2 stop_paused_is_noop). vm_compute. reflexivity.
Defined.

(** C7 as stated fails: after [start()] at 1000 and [pause()] at 1010,
    [stop()] does not invoke [end] and does not reset the instance,
    whereas on the running instance it does both. *)
Lemma stop_paused_counterexample :
  let running_one := start 1000 (create (Int 0) (Int 100) demo) in
  let paused_one := pause 1010 running_one in
  (log (stop running_one) = [End (Number (Int 1000))] /\
   self (stop running_one) = reset (self running_one)) /\
  ~ (In (End (Number (Int 1000))) (log (stop paused_one)) \/
     self (stop paused_one) = reset (self paused_one)).
Proof.
  split; [split; vm_compute; reflexivity |].
  intros [H | H].
  - vm_compute in H. exact H.
  - apply (f_equal paused) in H. vm_compute in H. discriminate H.
Qed.

(** C6 fails on the code: [start()] tests only [running], so on a paused
    instance it sets [running] and leaves [paused] set. *)
Theorem start_while_paused_sets_both_flags :
  let w := run [Start 1000; Pause 1010; Start 1020]
               (create (Int 0) (Int 100) demo) in
  paused (self w) = true /\ running (self w) = true.
Proof.
  split; vm_compute; reflexivity.
Qed.

Lemma clearInterval_self h w : self (clearInterval h w) = self w.
Proof. now destruct h. Qed.

Lemma clearInterval_log h w : log (clearInterval h w) = log w.
Proof. now destruct h. Qed.

Lemma checkEnd_self w : self (checkEnd w) = self w.
Proof. unfold checkEnd. now destruct (on_end _). Qed.

Lemma reset_flags i : paused (reset i) = false /\ running (reset i) = false.
Proof.
  unfold reset. cbn. destruct (repeat (options i)) as [[] | n |]; cbn; auto.
  destruct (0 <? n); cbn; auto.
Qed.

Lemma start_paused ts w : paused (self (start ts w)) = paused (self w).
Proof.
  unfold start. destruct (running (self w)); [reflexivity |].
  destruct (is_number (_firstStart (self w))); reflexivity.
Qed.

Lemma work_exclusive now ts w : exclusive w -> exclusive (work now ts w).
Proof.
  unfold exclusive, work. intros Hx.
  destruct (paused (self w)) eqn:Hp.
  - rewrite clearInterval_self. now rewrite Hp.
  - intros Hp'. exfalso. revert Hp'.
    assert (Hq : forall w0, paused (self w0) = false ->
              paused (self (checkTripFinished now ts w0)) = false).
    { intros w0 H0. unfold checkTripFinished, do_roundtrip, checkEnd.
      repeat match goal with
      | |- context [if ?c then _ else _] => destruct c
      end; rewrite ?start_paused; cbn; rewrite ?clearInterval_self; auto. }
    rewrite Hq; [discriminate |].
    unfold checkUpdate.
    repeat match goal with
    | |- context [if ?c then _ else _] => destruct c
    end; cbn; auto.
Qed.

Lemma step_exclusive o w :
  (match o with Start _ => paused (self w) = false | _ => True end) ->
  exclusive w -> exclusive (step o w).
Proof.
  intros Hs Hx. destruct o as [ts | ts | ts | | now ts]; cbn.
  - unfold exclusive. rewrite start_paused, Hs. discriminate.
  - unfold exclusive, pause. destruct (paused (self w)) eqn:Hp; cbn; auto.
  - unfold exclusive, resume. destruct (paused (self w)) eqn:Hp; cbn.
    + discriminate.
    + rewrite Hp. discriminate.
  - unfold exclusive, stop. destruct (running (self w)) eqn:Hr; cbn; auto.
    intros H. apply reset_flags.
  - destruct (armed w); [assumption | now apply work_exclusive].
Qed.

Lemma run_exclusive ops : forall w,
  no_start_while_paused ops w -> exclusive w -> exclusive (run ops w).
Proof.
  induction ops as [| o ops IH]; intros w Hn Hx; [assumption |].
  destruct Hn as [Ho Hn]. cbn. apply IH; [assumption |].
  now apply step_exclusive.
Qed.

(** ** The position, and durations that are not positive *)

Lemma start_times (ts : Z) (w : World) :
  running (self w) = false ->
  _start (self (start ts w)) = Number (Int ts) /\
  end_ (self (start ts w)) =
    Number (Int (ts + duration (options (self w)))) /\
  options (self (start ts w)) = options (self w).
Proof.
  intros H. unfold start. rewrite H.
  destruct (is_number (_firstStart (self w))); cbn; auto.
Qed.

(** C8, as the code has it: after [start()] at [ts] with a duration that
    is not positive, a firing at [now >= ts] takes [pos] to be 1 without
    dividing whenever [now > ts + duration], that is for every [now > ts],
    and also for [now = ts] when the duration is negative. *)
Theorem pos_is_1_past_end (w : World) (ts now : Z) :
  running (self w) = false ->
  duration (options (self w)) <= 0 ->
  ts <= now ->
  duration (options (self w)) < 0 \/ ts < now ->
  position (self (start ts w)) now = Fin 1 /\
  pos_divides_by_zero (self (start ts w)) now = false.
Proof.
  intros Hr Hd Hn Hs.
  destruct (start_times ts w Hr) as (_ & He & _).
  unfold position, pos_divides_by_zero. rewrite He. cbn.
  assert (Hlt : (ts + duration (options (self w)) <? now) = true)
    by (apply Z.ltb_lt; lia).
  now rewrite Hlt.
Qed.

Lemma pos_is_1_past_end_witness :
  let w := create (Int 0) (Int 100) zero_duration in
  position (self (start 1000 w)) 1016 = Fin 1 /\
  pos_divides_by_zero (self (start 1000 w)) 1016 = false.
Proof.
  apply (pos_is_1_past_end (create (Int 0) (Int 100) zero_duration)
           1000 1016).
  - vm_compute. reflexivity.
  - vm_compute. discriminate.
  - lia.
  - right. lia.
Defined.

(** C8 as stated fails: with a duration of 0, a firing whose clock
    reading equals that of [start()] is not past [end], so [work] divides
    0 by 0 and [pos] is [NaN], not 1. *)
Lemma pos_at_start_counterexample :
  let w := start 1000 (create (Int 0) (Int 100) zero_duration) in
  duration (options (self w)) <= 0 /\
  _start (self w) = Number (Int 1000) /\
  pos_divides_by_zero (self w) 1000 = true /\
  position (self w) 1000 = RNaN /\
  position (self w) 1000 <> Fin 1.
Proof.
  cbv zeta.
  assert (E : position
                (self (start 1000 (create (Int 0) (Int 100) zero_duration)))
                1000 = RNaN) by (vm_compute; reflexivity).
  rewrite E. repeat split; try (vm_compute; reflexivity).
  - vm_compute. discriminate.
  - discriminate.
Qed.

(** ** Counting trips *)

Local Arguments interpolate : simpl never.
Local Arguments position : simpl never.

(** Evaluation of the code on closed inputs, leaving the arithmetic on
    real numbers alone. *)
Ltac run_code := cbv -[interpolate position default_easing].

Lemma ends_app (l1 l2 : list event) : ends (l1 ++ l2) = ends l1 ++ ends l2.
Proof. apply flat_map_app. Qed.

Lemma values_app (l1 l2 : list event) :
  values (l1 ++ l2) = values l1 ++ values l2.
Proof. apply flat_map_app. Qed.

Lemma updated_values_app (l1 l2 : list event) :
  updated_values (l1 ++ l2) = updated_values l1 ++ updated_values l2.
Proof. apply flat_map_app. Qed.

(** [work] on an instance that is not paused: the callbacks, then
    [checkTripFinished]. *)
Lemma work_unpaused (now ts : Z) (w : World) :
  paused (self w) = false ->
  let v := interpolate (self w) (position (self w) now) in
  let changed := update (options (self w)) && neq (curr (self w)) v in
  work now ts w =
    checkTripFinished now ts
      {| self := if changed then set_curr (Number v) (self w) else self w;
         armed := armed w;
         fresh := fresh w;
         log := log w ++ (if each (options (self w)) then [Each v] else [])
                      ++ (if changed then [Update v] else []) |}.
Proof.
  destruct w as [[[d rp rt ea [|] [|] oe] f t ph s e c i p r fs tn wt tsv]
                   a n l].
  all: cbn; intros Hp; unfold work, checkUpdate; cbn; rewrite Hp; cbn.
  all: try destruct (neq c _); cbn.
  all: unfold emit, on_self, set_curr; cbn.
  all: rewrite ?app_nil_r, <- ?app_assoc; reflexivity.
Qed.

Lemma checkTripFinished_not_yet (now ts : Z) (w : World) :
  gt (Int now) (ToNumber (end_ (self w))) = false ->
  checkTripFinished now ts w = w.
Proof.
  intros H. unfold checkTripFinished. now rewrite H.
Qed.

Ltac fields :=
  cbn [self armed fresh log options from to phase _start end_ curr
       interval paused running _firstStart tripNr wantedTrips _ts
       duration repeat roundtrip easing each update on_end] in *.

Ltac updates :=
  cbn [self armed fresh log options from to phase _start end_ curr
       interval paused running _firstStart tripNr wantedTrips _ts
       duration repeat roundtrip easing each update on_end
       set_from set_to set_phase set_start set_end set_curr set_interval
       set_paused set_running set_firstStart set_tripNr set_wantedTrips
       set_ts on_self emit] in *.

Ltac inv_branch :=
  cbn; rewrite ?ends_app;
  repeat match goal with
  | H : ends _ = [] |- _ => rewrite H
  end; cbn;
  solve [ repeat split; eauto; try lia; try discriminate ].

Lemma ticks_cons (now ts : Z) (tk : list (Z * Z)) :
  ticks ((now, ts) :: tk) = Tick now ts :: ticks tk.
Proof. reflexivity. Qed.

Lemma run_cons (o : op) (ops : list op) (w : World) :
  run (o :: ops) w = run ops (step o w).
Proof. reflexivity. Qed.

Lemma trips_cons (o : op) (ops : list op) (w : World) :
  trips (o :: ops) w =
    ((if finishes w o then 1 else 0) + trips ops (step o w))%nat.
Proof. reflexivity. Qed.

Lemma idle_tick (now ts : Z) (w : World) :
  armed w = [] ->
  step (Tick now ts) w = w /\ finishes w (Tick now ts) = false.
Proof.
  intros H. cbn. now rewrite H.
Qed.

Lemma idle_run (tk : list (Z * Z)) (w : World) :
  armed w = [] ->
  run (ticks tk) w = w /\ trips (ticks tk) w = O.
Proof.
  intros H. induction tk as [| [now ts] tk [IHr IHt]]; [now split |].
  destruct (idle_tick now ts w H) as [Hs Hf].
  rewrite ticks_cons, run_cons, trips_cons, Hs, Hf.
  split; [exact IHr | exact IHt].
Qed.

(** One firing on an instance that is on a trip, without [roundtrip]: it
    finishes the trip exactly when it reads the clock past [e]; it then
    starts the next trip, which ends at [ts + duration], or, when the trip
    was the last one wanted, invokes [end] and leaves no timer armed. *)
Lemma on_trip_tick (o : Options) (ts0 e now ts : Z) (w : World) :
  roundtrip o = false ->
  on_trip o ts0 e w ->
  let w' := step (Tick now ts) w in
  wantedTrips (self w') = wantedTrips (self w) /\
  if e <? now then
    finishes w (Tick now ts) = true /\
    if wantedTrips (self w) =? -1 then
      tripNr (self w') = tripNr (self w) /\
      on_trip o ts0 (ts + duration o) w'
    else
      tripNr (self w') = tripNr (self w) + 1 /\
      if tripNr (self w) + 1 <? wantedTrips (self w)
      then on_trip o ts0 (ts + duration o) w'
      else finished o ts0 w'
  else
    finishes w (Tick now ts) = false /\
    tripNr (self w') = tripNr (self w) /\
    on_trip o ts0 e w'.
Proof.
  intros Hrt (Ho & Hp & Hr & Hfs & (h & Hi & Ha) & Hs & He & Hl).
  cbv zeta. unfold step. rewrite Ha.
  rewrite (work_unpaused now ts w Hp).
  destruct w as [[o' f t ph s e' c i p r fs tn wt tsv] a n l].
  fields. subst.
  set (v := interpolate _ _). clearbody v.
  set (ch := update o && neq c v). clearbody ch.
  destruct o as [d rp rt ea ec up oe]. fields. subst rt.
  unfold finishes, on_trip, finished. fields. cbn [negb andb gt ToNumber].
  destruct (e <? now) eqn:Hfin.
  - unfold checkTripFinished.
    destruct ch; cbn -[Z.add Z.sub]; rewrite Hfin; cbn -[Z.add Z.sub].
    all: destruct (wt =? -1) eqn:Hm1.
    all: try destruct (tn + 1 <? wt) eqn:Hlast.
    all: unfold start, checkEnd; cbn -[Z.add Z.sub]; rewrite ?Nat.eqb_refl;
      cbn -[Z.add Z.sub].
    all: split; [ destruct oe; reflexivity |].
    all: split; [reflexivity |].
    all: replace (ts + d - d) with ts by lia.
    all: try (destruct ec; inv_branch).
    all: destruct ec, oe; inv_branch.
  - rewrite checkTripFinished_not_yet.
    + split; [ destruct ch; reflexivity |].
      destruct ch, ec; inv_branch.
    + destruct ch; cbn; exact Hfin.
Qed.

(** A pause that lasts until the timer has fired puts the end of the
    trip off by its length and leaves the instance on its trip, on a new
    timer: no trip is finished and nothing is counted. *)
Lemma on_trip_rest (o : Options) (ts0 e t1 t2 : Z) (w : World) :
  on_trip o ts0 e w ->
  let w' := run (stage_ops (Rest t1 t2)) w in
  wantedTrips (self w') = wantedTrips (self w) /\
  tripNr (self w') = tripNr (self w) /\
  trips (stage_ops (Rest t1 t2)) w = O /\
  on_trip o ts0 (e + (t2 - t1)) w'.
Proof.
  intros (Ho & Hp & Hr & Hfs & (h & Hi & Ha) & Hs & He & Hl). cbv zeta.
  destruct w as [[o' f t ph s e' c i p r fs tn wt tsv] a n l].
  fields. subst.
  unfold on_trip, stage_ops, run, trips, finishes.
  cbn [fold_left step]. unfold pause, work, resume, doStart, setInterval.
  cbn -[Z.add Z.sub Nat.eqb]. rewrite Nat.eqb_refl. cbn -[Z.add Z.sub].
  replace (t2 - (t1 - (e - duration o)) + duration o) with (e + (t2 - t1))
    by lia.
  replace (t2 - (t1 - (e - duration o)))
    with (e + (t2 - t1) - duration o) by lia.
  repeat split; eauto.
Qed.

Lemma stages_app (l1 l2 : list stage) :
  stages (l1 ++ l2) = stages l1 ++ stages l2.
Proof. apply flat_map_app. Qed.

Lemma stages_firings (tk : list (Z * Z)) : stages (firings tk) = ticks tk.
Proof.
  induction tk as [| p tk IH]; [reflexivity |].
  cbn. f_equal. exact IH.
Qed.

Lemma run_app (l1 l2 : list op) (w : World) :
  run (l1 ++ l2) w = run l2 (run l1 w).
Proof. apply fold_left_app. Qed.

Lemma trips_app (l1 l2 : list op) : forall w : World,
  trips (l1 ++ l2) w = (trips l1 w + trips l2 (run l1 w))%nat.
Proof.
  induction l1 as [| o l1 IH]; intros w; [reflexivity |].
  cbn [app]. rewrite !trips_cons, run_cons, IH. lia.
Qed.

Lemma no_rest_firings (l : list stage) :
  (forall l1 t1 t2 l2, l <> l1 ++ Rest t1 t2 :: l2) ->
  exists tk, l = firings tk.
Proof.
  induction l as [| [now ts | t1 t2] l IH]; intros H.
  - exists []. reflexivity.
  - destruct IH as [tk ->].
    + intros l1 t1 t2 l2 Hl. apply (H (Fire now ts :: l1) t1 t2 l2).
      now rewrite Hl.
    + exists ((now, ts) :: tk). reflexivity.
  - now destruct (H [] t1 t2 l).
Qed.

(** The stages [l] finish as many trips as the clock says are overdue,
    until the wanted number is reached; [k] bounds the trips finished
    before the last pause. *)
Lemma on_trip_run (o : Options) (ts0 : Z) (l : list stage) :
  roundtrip o = false ->
  forall (w : World) (e : Z),
    on_trip o ts0 e w ->
    wantedTrips (self w) = -1 \/ tripNr (self w) < wantedTrips (self w) ->
    (forall l1 t1 t2 l2,
        l = l1 ++ Rest t1 t2 :: l2 ->
        wantedTrips (self w) = -1 \/
        tripNr (self w) + Z.of_nat (overdue (duration o) e l1)
          < wantedTrips (self w)) ->
    let late := overdue (duration o) e l in
    let w' := run (stages l) w in
    if wantedTrips (self w) =? -1 then
      trips (stages l) w = late /\ exists e', on_trip o ts0 e' w'
    else
      let more := Z.to_nat (wantedTrips (self w) - tripNr (self w)) in
      trips (stages l) w = Nat.min late more /\
      if (more <=? late)%nat then finished o ts0 w'
      else exists e', on_trip o ts0 e' w'.
Proof.
  intros Hrt. induction l as [| [now ts | t1 t2] l IH];
    intros w e Hon Hlt Hrest; cbv zeta.
  - cbn [overdue stages flat_map run fold_left trips].
    destruct (wantedTrips (self w) =? -1) eqn:Hm.
    + split; [reflexivity | eauto].
    + apply Z.eqb_neq in Hm.
      split; [reflexivity |].
      destruct (Nat.leb_spec
                  (Z.to_nat (wantedTrips (self w) - tripNr (self w))) 0);
        [lia | eauto].
  - change (stages (Fire now ts :: l)) with (Tick now ts :: stages l).
    rewrite run_cons, trips_cons. cbn [overdue].
    pose proof (on_trip_tick o ts0 e now ts w Hrt Hon) as Ht.
    cbv zeta in Ht. destruct Ht as [Hw Ht].
    set (w1 := step (Tick now ts) w) in *.
    destruct (e <? now) eqn:Hen.
    + destruct Ht as [Hf Ht]. rewrite Hf.
      destruct (wantedTrips (self w) =? -1) eqn:Hm.
      * destruct Ht as [Hn Hon1].
        assert (Hw1 : wantedTrips (self w1) = -1)
          by (rewrite Hw; now apply Z.eqb_eq).
        specialize (IH w1 _ Hon1 (or_introl Hw1)
                      (fun _ _ _ _ _ => or_introl Hw1)).
        cbv zeta in IH. rewrite Hw, Hm in IH. destruct IH as [IHt IHo].
        split; [now rewrite IHt | exact IHo].
      * apply Z.eqb_neq in Hm. destruct Hlt as [Hlt | Hlt]; [contradiction |].
        destruct Ht as [Hn Ht].
        destruct (Z.ltb_spec (tripNr (self w) + 1) (wantedTrips (self w)))
          as [Hmore | Hlast].
        -- assert (Hlt1 : wantedTrips (self w1) = -1 \/
                          tripNr (self w1) < wantedTrips (self w1))
             by (right; rewrite Hw, Hn; exact Hmore).
           assert (Hrest1 : forall l1 t1 t2 l2,
                     l = l1 ++ Rest t1 t2 :: l2 ->
                     wantedTrips (self w1) = -1 \/
                     tripNr (self w1)
                       + Z.of_nat (overdue (duration o) (ts + duration o) l1)
                       < wantedTrips (self w1)).
           { intros l1 t1 t2 l2 Hl.
             destruct (Hrest (Fire now ts :: l1) t1 t2 l2) as [H | H];
               [now rewrite Hl | contradiction |].
             right. cbn [overdue] in H. rewrite Hen in H.
             rewrite Hw, Hn. lia. }
           specialize (IH w1 _ Ht Hlt1 Hrest1). cbv zeta in IH.
           rewrite Hw, Hn in IH.
           destruct (Z.eqb_spec (wantedTrips (self w)) (-1)); [contradiction |].
           destruct IH as [IHt IHo]. rewrite IHt.
           replace (Z.to_nat (wantedTrips (self w) - tripNr (self w)))
             with (S (Z.to_nat (wantedTrips (self w) - (tripNr (self w) + 1))))
             by lia.
           split; [reflexivity | exact IHo].
        -- destruct Ht as (Ho1 & Ha1 & Hl1).
           assert (Hfires : exists tk, l = firings tk).
           { apply no_rest_firings. intros l1 t1 t2 l2 Hl.
             destruct (Hrest (Fire now ts :: l1) t1 t2 l2) as [H | H];
               [now rewrite Hl | contradiction |].
             cbn [overdue] in H. rewrite Hen in H. lia. }
           destruct Hfires as [tk ->]. rewrite stages_firings.
           destruct (idle_run tk w1 Ha1) as [Hr1 Ht1].
           rewrite Hr1, Ht1.
           replace (Z.to_nat (wantedTrips (self w) - tripNr (self w)))
             with 1%nat by lia.
           split; [cbn [Nat.min Nat.add]; now rewrite Nat.min_0_r |].
           cbn [Nat.leb]. repeat split; assumption.
    + destruct Ht as (Hf & Hn & Hon1). rewrite Hf.
      assert (Hlt1 : wantedTrips (self w1) = -1 \/
                     tripNr (self w1) < wantedTrips (self w1))
        by (rewrite Hw, Hn; exact Hlt).
      assert (Hrest1 : forall l1 t1 t2 l2,
                l = l1 ++ Rest t1 t2 :: l2 ->
                wantedTrips (self w1) = -1 \/
                tripNr (self w1) + Z.of_nat (overdue (duration o) e l1)
                  < wantedTrips (self w1)).
      { intros l1 t1 t2 l2 Hl. rewrite Hw, Hn.
        specialize (Hrest (Fire now ts :: l1) t1 t2 l2).
        cbn [overdue] in Hrest. rewrite Hen in Hrest.
        apply Hrest. now rewrite Hl. }
      specialize (IH w1 _ Hon1 Hlt1 Hrest1). cbv zeta in IH.
      rewrite Hw, Hn in IH. exact IH.
  - change (stages (Rest t1 t2 :: l))
      with (stage_ops (Rest t1 t2) ++ stages l).
    rewrite run_app, trips_app. cbn [overdue].
    destruct (on_trip_rest o ts0 e t1 t2 w Hon) as (Hw & Hn & Ht & Hon1).
    cbv zeta in *. rewrite Ht, Nat.add_0_l.
    set (w1 := run (stage_ops (Rest t1 t2)) w) in *.
    assert (Hlt1 : wantedTrips (self w1) = -1 \/
                   tripNr (self w1) < wantedTrips (self w1))
      by (rewrite Hw, Hn; exact Hlt).
    assert (Hrest1 : forall l1 t1' t2' l2,
              l = l1 ++ Rest t1' t2' :: l2 ->
              wantedTrips (self w1) = -1 \/
              tripNr (self w1)
                + Z.of_nat (overdue (duration o) (e + (t2 - t1)) l1)
                < wantedTrips (self w1)).
    { intros l1 t1' t2' l2 Hl. rewrite Hw, Hn.
      specialize (Hrest (Rest t1 t2 :: l1) t1' t2' l2).
      cbn [overdue] in Hrest. apply Hrest. now rewrite Hl. }
    specialize (IH w1 _ Hon1 Hlt1 Hrest1). cbv zeta in IH.
    rewrite Hw, Hn in IH. exact IH.
Qed.

(** What the constructor leaves, whatever the [repeat] option. *)
Lemma create_shape (f t : number) (u : UserOptions) :
  let w := create f t u in
  options (self w) = merge u /\ from (self w) = f /\ to (self w) = t /\
  phase (self w) = PhaseUnset /\ _start (self w) = Null /\
  end_ (self w) = Null /\ curr (self w) = Null /\
  interval (self w) = None /\ paused (self w) = false /\
  running (self w) = false /\ _firstStart (self w) = Undefined /\
  tripNr (self w) = 0 /\ armed w = [] /\ fresh w = O /\ log w = [].
Proof.
  unfold create. generalize (merge u). intros [d rp rt ea ec up oe].
  unfold reset. cbn -[Z.add Z.ltb].
  destruct rp as [[|] | m |]; try destruct (0 <? m); cbn; repeat split.
Qed.

(** After the constructor and the first [start()] the instance is on
    its first trip, with the number of trips [reset] derived from
    [repeat]. *)
Lemma start_on_trip (f t : number) (u : UserOptions) (ts0 : Z) :
  let w := start ts0 (create f t u) in
  on_trip (merge u) ts0 (ts0 + duration (merge u)) w /\
  tripNr (self w) = 0 /\
  wantedTrips (self w) =
    match trips_wanted (repeat (merge u)) with Some n => n | None => -1 end /\
  match trips_wanted (repeat (merge u)) with Some n => 1 <= n | None => True end.
Proof.
  cbv zeta. unfold create.
  generalize (merge u). intros [d rp rt ea ec up oe]. cbn [repeat duration].
  destruct rp as [[|] | m |]; unfold trips_wanted.
  all: unfold start, reset, on_trip; cbn -[Z.add Z.sub Z.ltb].
  3: destruct (Z.ltb_spec 0 m); cbn -[Z.add Z.sub Z.ltb].
  all: replace (ts0 + d - d) with ts0 by lia.
  all: repeat split; eauto; lia.
Qed.

Lemma overdue_prefix (d : Z) (l1 l2 : list stage) : forall e : Z,
  (overdue d e l1 <= overdue d e (l1 ++ l2))%nat.
Proof.
  induction l1 as [| [now ts | t1 t2] l1 IH]; intros e; cbn [app overdue].
  - lia.
  - destruct (e <? now); [apply le_n_S |]; apply IH.
  - apply IH.
Qed.

Lemma firings_no_rest (tk : list (Z * Z)) (t1 t2 : Z) :
  ~ In (Rest t1 t2) (firings tk).
Proof.
  induction tk as [| p tk IH]; cbn; [tauto |].
  intros [H | H]; [discriminate H | exact (IH H)].
Qed.

(** A pause among stages that end in firings lies in the part before
    the firings. *)
Lemma rest_is_early (early : list stage) (tk : list (Z * Z))
    (l1 l2 : list stage) (t1 t2 : Z) :
  early ++ firings tk = l1 ++ Rest t1 t2 :: l2 ->
  exists l2', early = l1 ++ Rest t1 t2 :: l2'.
Proof.
  intros H. apply app_eq_app in H as [l [[He Hr] | [Hl Hf]]].
  - destruct l as [| s l].
    + exfalso. apply (firings_no_rest tk t1 t2).
      cbn [app] in Hr. rewrite <- Hr. now left.
    + cbn [app] in Hr. injection Hr as <- _. now exists l.
  - exfalso. apply (firings_no_rest tk t1 t2).
    rewrite Hf. apply in_or_app. right. now left.
Qed.

(** C3 (as amended): a run without [roundtrip] and without [stop()]
    that consists of [start()] at [ts0], then of the stages [early],
    timer firings at arbitrary clock readings and pauses that last until
    the timer has fired, and then of the timer firings [tk].  A firing
    finishes a trip exactly when it reads the clock past the end of the
    trip under way, which a pause puts off by its length, and it starts
    the next trip if one is wanted.  If [repeat] is [false] (or a number
    that is not positive, or neither a boolean nor a number) 1 trip is
    wanted, if it is a positive number [n], [1 + n] are.  When the pauses
    come before the last wanted trip is finished, the number of finished
    trips is the number of overdue firings, up to the number wanted; the
    firing that finishes the last wanted trip invokes [end] (when it is
    set), once, with [ts0], and leaves no timer armed; before that [end]
    is not invoked and the instance is running on one timer.  If [repeat]
    is [true] every overdue firing finishes a trip and starts another, and
    [end] is never invoked. *)
Theorem repeat_trip_count
    (f t : number) (u : UserOptions) (ts0 : Z)
    (early : list stage) (tk : list (Z * Z)) :
  roundtrip (merge u) = false ->
  let d := duration (merge u) in
  let l := early ++ firings tk in
  let w0 := start ts0 (create f t u) in
  let w := run (stages l) w0 in
  let late := overdue d (ts0 + d) l in
  match trips_wanted (repeat (merge u)) with
  | Some n =>
      (overdue d (ts0 + d) early < Z.to_nat n)%nat ->
      trips (stages l) w0 = Nat.min late (Z.to_nat n) /\
      if (Z.to_nat n <=? late)%nat
      then armed w = [] /\
           ends (log w) =
             (if on_end (merge u) then [Number (Int ts0)] else [])
      else running (self w) = true /\
           (exists h, armed w = [h]) /\
           ends (log w) = []
  | None =>
      trips (stages l) w0 = late /\
      running (self w) = true /\
      (exists h, armed w = [h]) /\
      ends (log w) = []
  end.
Proof.
  intros Hrt. cbv zeta.
  destruct (start_on_trip f t u ts0) as (Hon & Hn & Hw & H1). cbv zeta in *.
  set (w0 := start ts0 (create f t u)) in *.
  assert (Hlt : wantedTrips (self w0) = -1 \/
                tripNr (self w0) < wantedTrips (self w0)).
  { rewrite Hw, Hn.
    destruct (trips_wanted (repeat (merge u))); [right; lia | now left]. }
  pose proof (on_trip_run (merge u) ts0 (early ++ firings tk) Hrt _ _
                Hon Hlt) as H.
  cbv zeta in H. rewrite Hw, Hn in H.
  destruct (trips_wanted (repeat (merge u))) as [n |].
  - intros Hearly.
    destruct (Z.eqb_spec n (-1)); [lia |].
    rewrite Z.sub_0_r in H. destruct H as [Ht H].
    { intros l1 t1 t2 l2 Hl. right.
      destruct (rest_is_early _ _ _ _ _ _ Hl) as [l2' ->].
      pose proof (overdue_prefix (duration (merge u)) l1 (Rest t1 t2 :: l2')
                    (ts0 + duration (merge u))).
      lia. }
    split; [exact Ht |].
    destruct (Z.to_nat n <=? _)%nat.
    + destruct H as (_ & Ha & Hl). now split.
    + destruct H as (e' & _ & _ & Hr & _ & (h & _ & Ha) & _ & _ & Hl).
      repeat split; eauto.
  - cbn [Z.eqb] in H.
    destruct H as [Ht (e' & _ & _ & Hr & _ & (h & _ & Ha) & _ & _ & Hl)];
      [intros; now left |].
    repeat split; eauto.
Qed.

Lemma repeat_trip_count_witness :
  let early := [Fire 1016 1016; Rest 1100 1200] in
  let tk := [(1501, 1502); (1601, 1602); (2103, 2103); (2604, 2604);
             (2700, 2700)] in
  let w0 := start 1000 (create (Int 0) (Int 100) two_repeats) in
  (overdue 500 1500 early < 3)%nat /\
  trips (stages (early ++ firings tk)) w0 = 3%nat /\
  armed (run (stages (early ++ firings tk)) w0) = [] /\
  ends (log (run (stages (early ++ firings tk)) w0)) = [Number (Int 1000)].
Proof.
  cbv zeta.
  assert (Hearly : (overdue 500 1500 [Fire 1016 1016; Rest 1100 1200] < 3)%nat)
    by (cbn; lia).
  split; [exact Hearly |].
  apply (repeat_trip_count (Int 0) (Int 100) two_repeats 1000
           [Fire 1016 1016; Rest 1100 1200]
           [(1501, 1502); (1601, 1602); (2103, 2103); (2604, 2604);
            (2700, 2700)] eq_refl Hearly).
Defined.

(** C3 as stated, for every run without [roundtrip], fails in two
    ways.  When [resume()] follows [pause()] before the timer has fired,
    [pause()] has left the timer armed and [resume()] arms a second one:
    with [repeat: false] the two firings past the end of the trip both
    find it finished and both invoke [end].  And [stop()] invokes [end]
    whatever the number of finished trips: with [repeat: 2], here, when
    none is finished. *)
Lemma resumed_run_counterexample :
  let ops := [Start 1000; Tick 1016 1016; Pause 1020; Resume 1025;
              Tick 1512 1512; Tick 1528 1528] in
  let w0 := create (Int 0) (Int 100) single_trip in
  let ops' := [Start 1000; Tick 1016 1016; Stop] in
  let w0' := create (Int 0) (Int 100) two_repeats in
  (trips ops w0 = 2%nat /\
   ends (log (run ops w0)) = [Number (Int 1000); Number (Int 1000)]) /\
  (trips ops' w0' = 0%nat /\
   ends (log (run ops' w0')) = [Number (Int 1000)]).
Proof.
  run_code. repeat split; reflexivity.
Qed.

(** With [repeat: 2], the third finished trip is the one that invokes
    [end]; two finished trips do not. *)
Example repeat_2_ends_after_3_trips :
  let w0 := start 1000 (create (Int 0) (Int 100) two_repeats) in
  let two := ticks [(1016, 1016); (1501, 1502); (2003, 2003)] in
  let three := ticks [(1016, 1016); (1501, 1502); (2003, 2003);
                      (2504, 2504); (2600, 2600)] in
  trips two w0 = 2%nat /\ ends (log (run two w0)) = [] /\
  trips three w0 = 3%nat /\
  ends (log (run three w0)) = [Number (Int 1000)] /\
  armed (run three w0) = [].
Proof.
  run_code. repeat split; reflexivity.
Qed.

(** ** Endless round trips *)

Lemma shuttling_step (o : Options) (f t : number) (k : nat)
    (x : op) (w : World) :
  roundtrip o = true ->
  is_stop x = false ->
  shuttling o f t k w ->
  shuttling o f t (k + (if finishes w x then 1 else 0)) (step x w).
Proof.
  intros Hrt Hs (Ho & Hw & Hn & Hl & Hk).
  destruct x as [ts | ts | ts | | now ts]; try discriminate Hs;
    cbn [step finishes]; rewrite ?Nat.add_0_r.
  - unfold start, shuttling, leg_state in *.
    destruct (running (self w)); [auto |].
    destruct (is_number (_firstStart (self w))); cbn; auto.
  - unfold pause, shuttling, leg_state in *.
    destruct (paused (self w)); cbn; auto.
  - unfold resume, shuttling, leg_state in *.
    destruct (paused (self w)); cbn; auto.
  - destruct (armed w) as [| h0 a0] eqn:Ha;
      [rewrite Nat.add_0_r; repeat split; assumption |].
    clear Ha h0 a0.
    destruct (paused (self w)) eqn:Hp; cbn [negb andb].
    + rewrite Nat.add_0_r. unfold work. rewrite Hp.
      unfold shuttling, leg_state in *.
      now rewrite clearInterval_self, clearInterval_log.
    + rewrite (work_unpaused now ts w Hp).
      destruct w as [[o' f' t' ph s e c i p r fs tn wt tsv] a n l].
      unfold shuttling, leg_state in *. fields. subst.
      set (v := interpolate _ _). clearbody v.
      set (ch := update o && neq c v). clearbody ch.
      destruct o as [d rp rt ea ec up oe]. fields. subst rt.
      unfold checkTripFinished, do_roundtrip, start, switchPhase.
      destruct (gt (Int now) (ToNumber e)) eqn:Hfin.
      * rewrite Nat.add_1_r, Nat.even_succ, <- Nat.negb_even.
        destruct (Nat.even k), ch, ec, i, ph; updates;
          cbv beta iota in Hk; destruct Hk as (Hf & Ht & Hph);
          try discriminate Hph; try (exfalso; apply Hph; reflexivity);
          rewrite ?Hfin; cbn;
          repeat match goal with
          | |- context [if ?b then _ else _] => destruct b; cbn
          end; rewrite ?ends_app, ?Hl; cbn;
          try solve [ intuition (try discriminate; try congruence) ].
      * rewrite Nat.add_0_r.
        destruct (Nat.even k), ch, ec; updates; rewrite ?Hfin; cbn;
          rewrite ?ends_app, ?Hl; cbn; intuition auto.
Qed.

Lemma shuttling_run (o : Options) (f t : number) (ops : list op) :
  roundtrip o = true ->
  existsb is_stop ops = false ->
  forall (w : World) (k : nat),
    shuttling o f t k w ->
    shuttling o f t (k + trips ops w) (run ops w).
Proof.
  intros Hrt. induction ops as [| x ops IH]; intros Hs w k Hk.
  - cbn. now rewrite Nat.add_0_r.
  - cbn in Hs. apply orb_false_iff in Hs as [Hx Hs].
    rewrite run_cons, trips_cons, Nat.add_assoc.
    apply IH; [exact Hs |]. now apply shuttling_step.
Qed.

Lemma create_shuttling (f t : number) (u : UserOptions) :
  repeat (merge u) = RepBool true ->
  shuttling (merge u) f t 0 (create f t u).
Proof.
  unfold create. generalize (merge u). intros [d rp rt ea ec up oe].
  cbn [repeat]. intros ->. unfold shuttling, leg_state, reset. cbn.
  repeat split; auto. discriminate.
Qed.

Lemma skipn_length_app {A} (l l' : list A) : skipn (length l) (l ++ l') = l'.
Proof.
  rewrite skipn_app, skipn_all, Nat.sub_diag. reflexivity.
Qed.

Lemma neq_false (c : value) (v : number) :
  neq c v = false -> c = Number v.
Proof.
  destruct c as [| | [| a]], v as [| b]; cbn; try discriminate.
  intros H. apply negb_false_iff, Z.eqb_eq in H. now subst.
Qed.

(** Whatever [curr] remembers has been passed to [update], and nothing
    has been passed since. *)
Lemma curr_was_updated_step (o : op) (w : World) :
  (forall x, curr (self w) = Number x ->
             exists l, updated_values (log w) = l ++ [x]) ->
  forall x, curr (self (step o w)) = Number x ->
            exists l, updated_values (log (step o w)) = l ++ [x].
Proof.
  intros H. destruct o as [ts | ts | ts | | now ts]; cbn [step].
  - unfold start. destruct (running (self w)); [exact H |].
    destruct (is_number (_firstStart (self w))); cbn; exact H.
  - unfold pause. destruct (paused (self w)); cbn; exact H.
  - unfold resume. destruct (paused (self w)); cbn; exact H.
  - unfold stop. destruct (running (self w)); cbn [negb]; [| exact H].
    unfold checkEnd, reset.
    destruct w as [[[d rp rt ea ec up oe] f t ph s e c i p r fs tn wt tsv]
                     a n l].
    destruct oe, i, rp as [[|] | m |]; updates; cbn -[Z.add Z.ltb];
      try destruct (0 <? m); cbn; intros x Hx; discriminate Hx.
  - destruct (armed w) as [| h0 a0] eqn:Ha; [exact H |]. clear Ha h0 a0.
    destruct (paused (self w)) eqn:Hp.
    + unfold work. rewrite Hp.
      now rewrite clearInterval_self, clearInterval_log.
    + rewrite (work_unpaused now ts w Hp). cbv zeta.
      set (v := interpolate _ _). clearbody v.
      destruct w as [[[d rp rt ea ec up oe] f t ph s e c i p r fs tn wt tsv]
                       a n l].
      fields. subst.
      destruct (up && neq c v) eqn:Hch.
      * unfold checkTripFinished, do_roundtrip, start, checkEnd.
        destruct ec, i; updates;
          repeat match goal with
          | |- context [if ?b then _ else _] => destruct b; cbn
          end;
          rewrite ?updated_values_app; cbn; rewrite ?app_nil_r;
          intros x Hx; injection Hx as <-; eauto.
      * unfold checkTripFinished, do_roundtrip, start, checkEnd.
        destruct ec, i; updates;
          repeat match goal with
          | |- context [if ?b then _ else _] => destruct b; cbn
          end;
          rewrite ?updated_values_app; cbn; rewrite ?app_nil_r;
          exact H.
Qed.

Lemma curr_was_updated_run (ops : list op) : forall w : World,
  (forall x, curr (self w) = Number x ->
             exists l, updated_values (log w) = l ++ [x]) ->
  forall x, curr (self (run ops w)) = Number x ->
            exists l, updated_values (log (run ops w)) = l ++ [x].
Proof.
  induction ops as [| o ops IH]; intros w H; [exact H |].
  rewrite run_cons. apply IH. now apply curr_was_updated_step.
Qed.

(** A firing that finds a leg of an endless round trip finished: the
    callbacks get the value at position 1, [from] and [to] are exchanged
    and the next leg is started at once, on a new timer, no trip
    counted. *)
Lemma shuttle_turns (o : Options) (f t : number) (k : nat) (now ts : Z)
    (w : World) :
  roundtrip o = true ->
  shuttling o f t k w ->
  finishes w (Tick now ts) = true ->
  let v := interpolate (self w) (Fin 1) in
  let changed := update o && neq (curr (self w)) v in
  let w' := step (Tick now ts) w in
  log w' = log w ++ (if each o then [Each v] else [])
                 ++ (if changed then [Update v] else []) /\
  curr (self w') = (if changed then Number v else curr (self w)) /\
  running (self w') = true /\
  paused (self w') = false /\
  from (self w') = to (self w) /\
  to (self w') = from (self w) /\
  _start (self w') = Number (Int ts) /\
  end_ (self w') = Number (Int (ts + duration o)) /\
  interval (self w') = Some (fresh w) /\
  In (fresh w) (armed w') /\
  tripNr (self w') = 0.
Proof.
  intros Hrt (Ho & Hw & Hn & Hl & Hk) Hfin. cbv zeta.
  unfold finishes in Hfin.
  destruct (armed w) as [| h0 a0] eqn:Ha; [discriminate Hfin |].
  unfold step. rewrite Ha. clear Ha h0 a0.
  apply andb_true_iff in Hfin as [Hp Hgt]. apply negb_true_iff in Hp.
  rewrite (work_unpaused now ts w Hp). cbv zeta.
  unfold position. rewrite Hgt.
  set (v := interpolate _ _). clearbody v.
  destruct w as [[o' f' t' ph s e c i p r fs tn wt tsv] a n l].
  fields. subst.
  set (ch := update o && neq c v). clearbody ch.
  destruct o as [d rp rt ea ec up oe]. fields. subst rt.
  unfold checkTripFinished, do_roundtrip, start, switchPhase.
  destruct ch, ec, i, ph, fs as [| | fs]; updates; rewrite ?Hgt;
    cbn -[Z.add In]; rewrite ?app_nil_r;
    repeat split;
    first [reflexivity | apply in_or_app; right; left; reflexivity].
Qed.

(** One firing in an endless run: past the end [e] of the trip it
    finishes the trip and starts the next one, which ends at
    [ts + duration]. *)
Lemma endless_tick (o : Options) (ts0 e now ts : Z) (w : World) :
  wantedTrips (self w) = -1 ->
  on_trip o ts0 e w ->
  let w' := step (Tick now ts) w in
  wantedTrips (self w') = -1 /\
  if e <? now
  then finishes w (Tick now ts) = true /\ on_trip o ts0 (ts + duration o) w'
  else finishes w (Tick now ts) = false /\ on_trip o ts0 e w'.
Proof.
  intros Hw (Ho & Hp & Hr & Hfs & (h & Hi & Ha) & Hs & He & Hl).
  cbv zeta. unfold step. rewrite Ha.
  rewrite (work_unpaused now ts w Hp).
  destruct w as [[o' f t ph s e' c i p r fs tn wt tsv] a n l].
  fields. subst.
  set (v := interpolate _ _). clearbody v.
  set (ch := update o && neq c v). clearbody ch.
  destruct o as [d rp rt ea ec up oe]. fields.
  unfold finishes, on_trip. fields. cbn [negb andb gt ToNumber].
  destruct (e <? now) eqn:Hfin.
  - unfold checkTripFinished, do_roundtrip, start, switchPhase.
    destruct ch, ec, rt, ph; updates; cbn -[Z.add Z.sub]; rewrite ?Hfin;
      cbn -[Z.add Z.sub]; rewrite ?Nat.eqb_refl; cbn -[Z.add Z.sub];
      rewrite ?ends_app, ?Hl; cbn -[Z.add Z.sub];
      replace (ts + d - d) with ts by lia;
      repeat split; eauto.
  - rewrite checkTripFinished_not_yet.
    + destruct ch, ec; inv_branch.
    + destruct ch; cbn; exact Hfin.
Qed.

Lemma endless_run (o : Options) (ts0 : Z) (l : list stage) :
  forall (w : World) (e : Z),
    wantedTrips (self w) = -1 ->
    on_trip o ts0 e w ->
    trips (stages l) w = overdue (duration o) e l.
Proof.
  induction l as [| [now ts | t1 t2] l IH]; intros w e Hw Hon;
    [reflexivity | |].
  - change (stages (Fire now ts :: l)) with (Tick now ts :: stages l).
    rewrite trips_cons. cbn [overdue].
    destruct (endless_tick o ts0 e now ts w Hw Hon) as (Hw' & H).
    cbv zeta in *.
    destruct (e <? now); destruct H as [Hf Hon']; rewrite Hf;
      rewrite (IH _ _ Hw' Hon'); reflexivity.
  - change (stages (Rest t1 t2 :: l))
      with (stage_ops (Rest t1 t2) ++ stages l).
    rewrite trips_app. cbn [overdue].
    destruct (on_trip_rest o ts0 e t1 t2 w Hon) as (Hw' & _ & Ht & Hon').
    cbv zeta in *. rewrite Ht, Nat.add_0_l.
    apply (IH _ _ (eq_trans Hw' Hw) Hon').
Qed.

(** C4 (as amended): a run with [repeat: true] and [roundtrip: true],
    from [f] to [t], with an easing function that ends at 1 (as the
    default one does), under any calls of [start()], [pause()],
    [resume()] and any timer firings, but no [stop()].  [end] is never
    invoked and no trip is ever counted; [from] and [to] stand as
    created after an even number of finished legs and exchanged after an
    odd number.  In a run of [start()], timer firings and pauses that
    last until the timer has fired, every firing that reads the clock
    past the end of the leg under way finishes it.  A firing that
    finishes a leg computes the value [t] when the leg is odd-numbered and
    the original [f] when it is even-numbered: [each] receives it,
    [update] receives it unless it received that value last, so that it
    is the last value [update] has received; the firing exchanges [from]
    and [to] and starts the next leg at once, from its own clock reading,
    on a new timer. *)
Theorem roundtrip_forever (f t : Z) (u : UserOptions) (ops : list op) :
  roundtrip (merge u) = true ->
  repeat (merge u) = RepBool true ->
  easing (merge u) 1 = 1%R ->
  existsb is_stop ops = false ->
  let w0 := create (Int f) (Int t) u in
  let w := run ops w0 in
  let k := trips ops w0 in
  (ends (log w) = [] /\
   tripNr (self w) = 0 /\
   leg_state (Int f) (Int t) k w) /\
  (forall (ts0 : Z) (l : list stage),
     trips (Start ts0 :: stages l) w0 =
       overdue (duration (merge u)) (ts0 + duration (merge u)) l) /\
  (forall now ts : Z,
     finishes w (Tick now ts) = true ->
     let w' := step (Tick now ts) w in
     let v := if Nat.even (S k) then Int f else Int t in
     emitted (Tick now ts) w =
       (if each (merge u) then [Each v] else []) ++
       (if update (merge u) && neq (curr (self w)) v
        then [Update v] else []) /\
     (update (merge u) = true ->
      exists l, updated_values (log w') = l ++ [v]) /\
     ends (log w') = [] /\
     tripNr (self w') = 0 /\
     from (self w') = to (self w) /\
     to (self w') = from (self w) /\
     leg_state (Int f) (Int t) (S k) w' /\
     running (self w') = true /\
     paused (self w') = false /\
     _start (self w') = Number (Int ts) /\
     end_ (self w') = Number (Int (ts + duration (merge u))) /\
     (exists h, interval (self w') = Some h /\ In h (armed w'))).
Proof.
  intros Hrt Hrp He Hs. cbv zeta.
  pose proof (shuttling_run (merge u) (Int f) (Int t) ops Hrt Hs _ O
                (create_shuttling (Int f) (Int t) u Hrp)) as Hk.
  rewrite Nat.add_0_l in Hk.
  set (w0 := create (Int f) (Int t) u) in *.
  set (w := run ops w0) in *.
  split; [| split].
  - destruct Hk as (_ & _ & Hn & Hl & Hk). now repeat split.
  - intros ts0 l.
    rewrite trips_cons. cbn [finishes step Nat.add].
    destruct (start_on_trip (Int f) (Int t) u ts0) as (Hon & _ & Hw & _).
    cbv zeta in Hon, Hw. fold w0 in Hon, Hw.
    apply (endless_run (merge u) ts0 l _ _); [| exact Hon].
    rewrite Hw. unfold trips_wanted. now rewrite Hrp.
  - intros now ts Hfin.
    pose proof (shuttling_step (merge u) (Int f) (Int t) _ (Tick now ts) w
                  Hrt eq_refl Hk) as Hk'.
    rewrite Hfin, Nat.add_1_r in Hk'.
    pose proof (shuttle_turns (merge u) (Int f) (Int t) _ now ts w Hrt Hk
                  Hfin) as Ht.
    cbv zeta in Ht.
    destruct Hk as (Ho & Hw & Hn & Hl & Hk).
    assert (Hv : interpolate (self w) (Fin 1) =
                 if Nat.even (S (trips ops w0)) then Int f else Int t).
    { rewrite Nat.even_succ, <- Nat.negb_even.
      unfold leg_state in Hk.
      destruct (Nat.even (trips ops w0)); cbn [negb];
        destruct Hk as (Hf & Ht' & _);
        apply (interpolate_at_1 _ _ _ Hf Ht'); now rewrite Ho. }
    rewrite Hv in Ht.
    set (v := if Nat.even (S (trips ops w0)) then Int f else Int t) in *.
    destruct Ht as (Hlog & Hc & Hr & Hp & Hfr & Hto & Hst & Hen & Hi & Hin
                    & Htn).
    destruct Hk' as (_ & _ & _ & Hl' & Hk').
    split; [| split; [| repeat split; eauto]].
    + unfold emitted. rewrite Hlog. apply skipn_length_app.
    + intros Hu. rewrite Hlog, !updated_values_app, Hu. cbn [andb].
      destruct (neq (curr (self w)) v) eqn:Hneq.
      * destruct (each (merge u)); cbn; rewrite ?app_nil_r; eauto.
      * apply neq_false in Hneq.
        assert (HJ : exists l, updated_values (log w) = l ++ [v]).
        { apply (curr_was_updated_run ops w0); [| exact Hneq].
          intros x Hx. destruct (create_shape (Int f) (Int t) u)
            as (_ & _ & _ & _ & _ & _ & Hc0 & _).
          cbv zeta in Hc0. fold w0 in Hc0. congruence. }
        destruct (each (merge u)); cbn; rewrite ?app_nil_r; exact HJ.
Qed.
Lemma roundtrip_forever_witness :
  let w0 := create (Int 0) (Int 100) back_and_forth in
  let w := run [Start 1000; Tick 1501 1502] w0 in
  let w' := step (Tick 2003 2004) w in
  trips (Start 1000 ::
         stages [Fire 1016 1016; Fire 1501 1502; Rest 1600 1700;
                 Fire 2003 2004; Fire 2103 2104; Fire 2605 2606]) w0
    = 3%nat /\
  finishes w (Tick 2003 2004) = true /\
  emitted (Tick 2003 2004) w =
    [Each (Int 0)] ++
    (if neq (curr (self w)) (Int 0) then [Update (Int 0)] else []) /\
  (exists l, updated_values (log w') = l ++ [Int 0]) /\
  ends (log w') = [] /\
  tripNr (self w') = 0 /\
  from (self w') = to (self w) /\
  running (self w') = true /\
  end_ (self w') = Number (Int 2504).
Proof.
  cbv zeta.
  assert (H1 : roundtrip (merge back_and_forth) = true) by reflexivity.
  assert (H2 : repeat (merge back_and_forth) = RepBool true) by reflexivity.
  assert (H4 : existsb is_stop [Start 1000; Tick 1501 1502] = false)
    by reflexivity.
  assert (Hfin : finishes (run [Start 1000; Tick 1501 1502]
                             (create (Int 0) (Int 100) back_and_forth))
                   (Tick 2003 2004) = true)
    by (run_code; reflexivity).
  assert (Hk : trips [Start 1000; Tick 1501 1502]
                 (create (Int 0) (Int 100) back_and_forth) = 1%nat)
    by (run_code; reflexivity).
  destruct (roundtrip_forever 0 100 back_and_forth
              [Start 1000; Tick 1501 1502] H1 H2 default_easing_1 H4)
    as (_ & Hlive & Hturn).
  specialize (Hturn 2003 2004 Hfin). cbv zeta in Hturn.
  rewrite Hk in Hturn. cbn [Nat.even] in Hturn.
  change (each (merge back_and_forth)) with true in Hturn.
  change (update (merge back_and_forth)) with true in Hturn.
  change (2004 + duration (merge back_and_forth)) with 2504 in Hturn.
  cbn [andb] in Hturn.
  destruct Hturn as (Hem & Hup & Hends & Htn & Hfr & _ & _ & Hr & _ & _
                     & Hen & _).
  split; [rewrite Hlive; reflexivity |].
  split; [exact Hfin |].
  split; [exact Hem |].
  split; [exact (Hup eq_refl) |].
  split; [exact Hends |].
  split; [exact Htn |].
  split; [exact Hfr |].
  split; [exact Hr | exact Hen].
Defined.

(** C4 as stated, for every such run, fails in two ways.  [stop()] on
    the running instance invokes [end]; and with an
    easing function that does not end at 1 the value at the end of the
    second leg is not the original [from]: with [half_way], from 0 to
    100, both legs end on 50. *)
Lemma stopped_shuttle_counterexample :
  ends (log (run [Start 1000; Tick 1016 1016; Stop]
                 (create (Int 0) (Int 100) back_and_forth))) =
    [Number (Int 1000)] /\
  values (log (run [Start 1000; Tick 1501 1502; Tick 2003 2004]
                 (create (Int 0) (Int 100) timid))) = [Int 50; Int 50].
Proof.
  split.
  - run_code. reflexivity.
  - cbv -[interpolate position default_easing half_way].
    unfold interpolate, position. fields.
    cbn [gt ToNumber Z.ltb Z.compare Pos.compare Pos.compare_cont].
    unfold half_way.
    replace (IZR 0 + (IZR 100 - IZR 0) * (1 / 2))%R with (IZR 50) by lra.
    replace (IZR 100 + (IZR 0 - IZR 100) * (1 / 2))%R with (IZR 50) by lra.
    rewrite floor_IZR. reflexivity.
Qed.

(** ** A single trip with an [update] callback *)

Lemma last_update_app (es es' : list event) (x : number) :
  last_update (es ++ es') x = last_update es' (last_update es x).
Proof. apply fold_left_app. Qed.

(** One timer firing on a travelling instance: past [e] the trip ends,
    no timer stays armed and the variable holds [t]; before, the trip goes
    on. *)
Lemma travelling_tick (f t e : Z) (x : number) (now ts : Z) (w : World) :
  travelling f t e x w ->
  let w' := step (Tick now ts) w in
  let x' := last_update (emitted (Tick now ts) w) x in
  if e <? now
  then armed w' = [] /\ x' = Int t
  else travelling f t e x' w'.
Proof.
  intros (He1 & Hec & Hup & Hrt & Hf & Ht & Hp & Hr & Hn & Hw & He
          & (h & Hi & Ha) & Hc).
  cbv zeta. unfold emitted. cbn [step]. rewrite Ha.
  rewrite (work_unpaused now ts w Hp). cbv zeta.
  assert (Hv : (e <? now) = true ->
               interpolate (self w) (position (self w) now) = Int t).
  { intros Hlt. unfold position. rewrite He. cbn [gt ToNumber].
    rewrite Hlt. now apply (interpolate_at_1 _ f t). }
  set (v := interpolate (self w) (position (self w) now)) in *.
  clearbody v.
  destruct w as [[[d rp rt ea ec up oe] f' t' ph s e' c i p r fs tn wt tsv]
                   a n l].
  unfold travelling. fields. subst.
  unfold checkTripFinished.
  destruct (neq c v) eqn:Hneq; cbn [andb]; updates; cbn [gt ToNumber].
  all: destruct (e <? now) eqn:Hlt; cbn [negb andb].
  all: try rewrite (Hv eq_refl) in *.
  all: unfold checkEnd; destruct oe; cbn; rewrite ?Nat.eqb_refl; cbn.
  all: rewrite <- ?app_assoc, ?skipn_length_app; cbn.
  all: try (apply neq_false in Hneq).
  all: repeat split; eauto.
  all: try (intros v0 Hv0; now injection Hv0).
Qed.

Lemma idle_emits_nothing (now ts : Z) (w : World) :
  armed w = [] -> emitted (Tick now ts) w = [].
Proof.
  intros H. unfold emitted. cbn [step]. rewrite H. apply skipn_all.
Qed.

(** The interpolator of a slider transition, just started. *)
Lemma start_travelling (l off d ts : Z) (x : number) :
  travelling l off (ts + d) x
    (start ts
       (create (Int l) (Int off)
          {| u_duration := Some d; u_repeat := None; u_roundtrip := None;
             u_easing := None; u_each := false; u_update := true;
             u_end := false |})).
Proof.
  unfold travelling, start, create, reset, merge. cbn -[Z.add].
  repeat split; eauto using default_easing_1. discriminate.
Qed.

(** ** Calls of the API in succession *)

Lemma start_runs (ts : Z) (w : World) : running (self (start ts w)) = true.
Proof.
  unfold start. destruct (running (self w)) eqn:Hr; [exact Hr |].
  destruct (is_number (_firstStart (self w))); reflexivity.
Qed.

(** [start()] on an instance that [start()] has just started does
    nothing: no second timer is armed and [end] is not moved. *)
Theorem start_twice (ts ts' : Z) (w : World) :
  start ts' (start ts w) = start ts w.
Proof.
  unfold start at 1. now rewrite start_runs.
Qed.

(** [resume()] at [t2] after [pause()] at [t1] moves [_start] and [end]
    forward by the length of the pause: a firing at the moment of the
    [resume()] sees the position a firing at the moment of the [pause()]
    would have seen. *)
Theorem resume_continues (w : World) (s t1 t2 : Z) :
  paused (self w) = false ->
  _start (self w) = Number (Int s) ->
  end_ (self w) = Number (Int (s + duration (options (self w)))) ->
  let w' := resume t2 (pause t1 w) in
  paused (self w') = false /\
  running (self w') = true /\
  _start (self w') = Number (Int (t2 - (t1 - s))) /\
  end_ (self w') =
    Number (Int (t2 - (t1 - s) + duration (options (self w)))) /\
  position (self w') t2 = position (self w) t1.
Proof.
  destruct w as [[o f t ph s' e c i p r fs tn wt tsv] a n l].
  fields. intros -> -> ->. cbv zeta. unfold resume, pause, position.
  updates. cbn [negb]. updates. unfold doStart, setInterval. updates.
  cbn [ToNumber sub add gt].
  repeat split.
  replace (t2 - (t1 - s) + duration o <? t2) with (s + duration o <? t1).
  2: { destruct (Z.ltb_spec (s + duration o) t1),
         (Z.ltb_spec (t2 - (t1 - s) + duration o) t2); try reflexivity; lia. }
  replace (t2 - (t2 - (t1 - s))) with (t1 - s) by lia. reflexivity.
Qed.

Lemma resume_continues_witness :
  let w := start 1000 (create (Int 0) (Int 100) demo) in
  position (self (resume 1400 (pause 1200 w))) 1400 = position (self w) 1200.
Proof.
  apply (resume_continues (start 1000 (create (Int 0) (Int 100) demo))
           1000 1200 1400); run_code; reflexivity.
Defined.

(** As long as the instance is paused, timer firings invoke no callback
    and change no field of the instance; they can only disarm timers. *)
Theorem paused_ticks_are_silent (tk : list (Z * Z)) (w : World) :
  paused (self w) = true ->
  self (run (ticks tk) w) = self w /\
  log (run (ticks tk) w) = log w /\
  incl (armed (run (ticks tk) w)) (armed w).
Proof.
  revert w. induction tk as [| [now ts] tk IH]; intros w Hp.
  - cbn. repeat split. apply incl_refl.
  - rewrite ticks_cons, run_cons.
    assert (Hs : self (step (Tick now ts) w) = self w /\
                 log (step (Tick now ts) w) = log w /\
                 incl (armed (step (Tick now ts) w)) (armed w)).
    { cbn [step]. destruct (armed w) as [| h a] eqn:Ha.
      - rewrite Ha. repeat split. apply incl_refl.
      - rewrite <- Ha. unfold work. rewrite Hp.
        rewrite clearInterval_self, clearInterval_log.
        repeat split. destruct (interval (self w)); cbn;
          [apply incl_filter | apply incl_refl]. }
    destruct Hs as (Hs & Hl & Ha).
    destruct (IH (step (Tick now ts) w)) as (Hs' & Hl' & Ha').
    { now rewrite Hs. }
    rewrite Hs', Hl', Hs, Hl. repeat split.
    eapply incl_tran; eassumption.
Qed.

Lemma paused_ticks_are_silent_witness :
  let w := pause 1200 (start 1000 (create (Int 0) (Int 100) demo)) in
  log (run (ticks [(1216, 1216); (1232, 1232)]) w) = log w.
Proof.
  apply (paused_ticks_are_silent [(1216, 1216); (1232, 1232)]
           (pause 1200 (start 1000 (create (Int 0) (Int 100) demo)))).
  run_code. reflexivity.
Defined.

(** [pause()] disarms nothing (the next firing would), and [resume()]
    arms a new timer: after a [pause()] and a [resume()] with no firing in
    between, every timer that was armed is still armed beside the new one,
    and [interval] holds the new one only. *)
Theorem pause_resume_keeps_timers (w : World) (t1 t2 : Z) :
  paused (self w) = false ->
  armed (resume t2 (pause t1 w)) = armed w ++ [fresh w] /\
  interval (self (resume t2 (pause t1 w))) = Some (fresh w).
Proof.
  destruct w as [[o f t ph s' e c i p r fs tn wt tsv] a n l].
  fields. intros ->. unfold resume, pause. updates. cbn [negb]. updates.
  unfold doStart, setInterval. updates. split; reflexivity.
Qed.

Lemma pause_resume_keeps_timers_witness :
  let w := start 1000 (create (Int 0) (Int 100) demo) in
  armed (resume 1210 (pause 1205 w)) = armed w ++ [fresh w].
Proof.
  apply (pause_resume_keeps_timers
           (start 1000 (create (Int 0) (Int 100) demo)) 1205 1210).
  run_code. reflexivity.
Defined.

Lemma overrun_tick (e t0 now ts : Z) (w : World) :
  e < now ->
  roundtrip (options (self w)) = false ->
  on_end (options (self w)) = true ->
  wantedTrips (self w) = 1 ->
  paused (self w) = false ->
  end_ (self w) = Number (Int e) ->
  _firstStart (self w) = Number (Int t0) ->
  interval (self w) = Some 1%nat ->
  (armed w = [0%nat; 1%nat] /\ tripNr (self w) = 0 \/
   armed w = [0%nat] /\ 1 <= tripNr (self w)) ->
  let w' := step (Tick now ts) w in
  roundtrip (options (self w')) = false /\
  on_end (options (self w')) = true /\
  wantedTrips (self w') = 1 /\
  paused (self w') = false /\
  end_ (self w') = Number (Int e) /\
  _firstStart (self w') = Number (Int t0) /\
  interval (self w') = Some 1%nat /\
  (armed w' = [0%nat] /\ 1 <= tripNr (self w')) /\
  ends (log w') = ends (log w) ++ [Number (Int t0)].
Proof.
  intros Hlt Hrt Hoe Hw Hp He Hfs Hi Ha. cbv zeta.
  assert (Hstep : step (Tick now ts) w = work now ts w).
  { cbn [step]. destruct Ha as [[-> _] | [-> _]]; reflexivity. }
  rewrite Hstep, (work_unpaused now ts w Hp). cbv zeta.
  set (v := interpolate _ _). clearbody v.
  destruct w as [[[d rp rt ea ec up oe] f t ph s e' c i p r fs tn wt tsv]
                   a n l].
  fields. subst.
  set (ch := up && neq c v) in *. clearbody ch.
  apply Z.ltb_lt in Hlt.
  assert (Hcmp : (tn + 1 <? 1) = false)
    by (apply Z.ltb_ge; destruct Ha as [[_ ->] | [_ Hge]]; lia).
  assert (Htn : 1 <= tn + 1) by (apply Z.ltb_ge in Hcmp; lia).
  unfold checkTripFinished, checkEnd.
  destruct Ha as [[-> _] | [-> _]];
    destruct ch, ec; updates; cbn [gt ToNumber]; rewrite Hlt;
    unfold clearInterval; updates; cbn -[Z.ltb Z.add];
    rewrite Hcmp; updates;
    rewrite ?ends_app; cbn -[Z.add]; rewrite ?app_nil_r;
    repeat split; try reflexivity; try assumption.
Qed.

Lemma overrun_ticks (e t0 : Z) (tk : list (Z * Z)) :
  Forall (fun p => e < fst p) tk ->
  forall w : World,
    roundtrip (options (self w)) = false ->
    on_end (options (self w)) = true ->
    wantedTrips (self w) = 1 ->
    paused (self w) = false ->
    end_ (self w) = Number (Int e) ->
    _firstStart (self w) = Number (Int t0) ->
    interval (self w) = Some 1%nat ->
    (armed w = [0%nat; 1%nat] /\ tripNr (self w) = 0 \/
     armed w = [0%nat] /\ 1 <= tripNr (self w)) ->
    ends (log (run (ticks tk) w)) =
      ends (log w) ++ List.repeat (Number (Int t0)) (length tk).
Proof.
  induction 1 as [| [now ts] tk Hlt _ IH]; intros w Hrt Hoe Hw Hp He Hfs Hi Ha.
  - cbn. now rewrite app_nil_r.
  - rewrite ticks_cons, run_cons. cbn [fst] in Hlt.
    destruct (overrun_tick e t0 now ts w Hlt Hrt Hoe Hw Hp He Hfs Hi Ha)
      as (Hrt' & Hoe' & Hw' & Hp' & He' & Hfs' & Hi' & Ha' & Hl').
    rewrite (IH _ Hrt' Hoe' Hw' Hp' He' Hfs' Hi' (or_intror Ha')), Hl'.
    rewrite <- app_assoc. reflexivity.
Qed.

Lemma wanted_one (f t : number) (u : UserOptions) :
  trips_wanted (repeat (merge u)) = Some 1 ->
  wantedTrips (self (create f t u)) = 1.
Proof.
  unfold create. generalize (merge u). intros [d rp rt ea ec up oe].
  cbn [repeat]. unfold reset, trips_wanted.
  destruct rp as [[|] | m |]; cbn -[Z.add Z.ltb]; try discriminate;
    try reflexivity.
  destruct (Z.ltb_spec 0 m); cbn -[Z.add]; [| reflexivity].
  intros Hm. assert (1 + m = 1) by congruence. lia.
Qed.

(** A consequence for a run of a single trip with an [end] callback:
    after [start()], [pause()] and [resume()] with no firing in between, the
    timer of the [start()] stays armed for ever, and every firing past the
    end of the trip invokes [end] again, with the time of the [start()]. *)
Theorem leaked_timer_repeats_end
    (f t : number) (u : UserOptions) (t0 t1 t2 : Z) (tk : list (Z * Z)) :
  roundtrip (merge u) = false ->
  trips_wanted (repeat (merge u)) = Some 1 ->
  on_end (merge u) = true ->
  Forall (fun p => t2 - (t1 - t0) + duration (merge u) < fst p) tk ->
  ends (log (run (Start t0 :: Pause t1 :: Resume t2 :: ticks tk)
                 (create f t u))) =
    List.repeat (Number (Int t0)) (length tk).
Proof.
  intros Hrt Hn Hoe Hall. rewrite !run_cons.
  pose proof (wanted_one f t u Hn) as Hw.
  destruct (create_shape f t u)
    as (Ho & _ & _ & _ & Hs & He & _ & Hi & Hp & Hr & Hfs & Htn & Ha & Hfr
        & Hl).
  cbv zeta in *. rewrite <- Ho in *. clear Ho Hn.
  destruct (create f t u)
    as [[o f' t' ph s e c i p r fs tn wt tsv] a n l].
  fields. subst.
  rewrite (overrun_ticks (t2 - (t1 - t0) + duration o) t0 tk Hall).
  all: cbn [step]; unfold resume, pause, start; updates; cbn [negb is_number];
    updates; unfold doStart, setInterval; updates; cbn [negb]; updates.
  all: try reflexivity; try assumption.
  left. split; reflexivity.
Qed.

Lemma leaked_timer_repeats_end_witness :
  ends (log (run (Start 1000 :: Pause 1005 :: Resume 1010
                    :: ticks [(1520, 1520); (1536, 1536); (1552, 1552)])
                 (create (Int 0) (Int 100) demo))) =
    [Number (Int 1000); Number (Int 1000); Number (Int 1000)].
Proof.
  apply (leaked_timer_repeats_end (Int 0) (Int 100) demo 1000 1005 1010
           [(1520, 1520); (1536, 1536); (1552, 1552)]).
  - run_code. reflexivity.
  - run_code. reflexivity.
  - run_code. reflexivity.
  - repeat constructor.
Defined.

(** What [reset] assigns and what it keeps. *)
Lemma reset_shape (i : Instance) :
  options (reset i) = options i /\ from (reset i) = from i /\
  to (reset i) = to i /\ phase (reset i) = phase i /\
  _start (reset i) = Null /\ end_ (reset i) = Null /\
  curr (reset i) = Null /\ interval (reset i) = None /\
  paused (reset i) = false /\ running (reset i) = false /\
  _firstStart (reset i) = Undefined /\ tripNr (reset i) = 0.
Proof.
  destruct i as [[d rp rt ea ec up oe] f t ph s e c i p r fs tn wt tsv].
  unfold reset. cbn -[Z.add Z.ltb].
  destruct rp as [[|] | m |]; try destruct (0 <? m); cbn; repeat split.
Qed.

(** After [stop()], [start()] is a first start again. *)
Theorem stop_then_start_is_first_start (w : World) (ts : Z) :
  running (self w) = true ->
  let w' := start ts (stop w) in
  _firstStart (self w') = Number (Int ts) /\
  _start (self w') = Number (Int ts) /\
  tripNr (self w') = 0 /\
  curr (self w') = Null /\
  paused (self w') = false /\
  running (self w') = true.
Proof.
  intros Hr. cbv zeta.
  destruct (stop_running w Hr) as (_ & Hs & _).
  destruct (reset_shape (self w))
    as (_ & _ & _ & _ & _ & _ & Hc & _ & Hp & Hr' & Hfs & Htn).
  rewrite <- Hs in *. clear Hs Hr.
  destruct (stop w) as [[o f t ph s e c i p r fs tn wt tsv] a n l].
  fields. subst. unfold start. updates. cbn [is_number]. updates.
  unfold doStart, setInterval. updates. repeat split.
Qed.

Lemma stop_then_start_is_first_start_witness :
  _firstStart
    (self (start 3000 (stop (start 1000 (create (Int 0) (Int 100) demo))))) =
    Number (Int 3000).
Proof.
  apply (stop_then_start_is_first_start
           (start 1000 (create (Int 0) (Int 100) demo)) 3000).
  run_code. reflexivity.
Defined.

(** [stop()] keeps [from], [to] and [phase]. *)
Lemma stop_keeps_direction (w : World) :
  from (self (stop w)) = from (self w) /\
  to (self (stop w)) = to (self w) /\
  phase (self (stop w)) = phase (self w).
Proof.
  destruct (running (self w)) eqn:Hr.
  - destruct (stop_running w Hr) as (_ & -> & _).
    destruct (reset_shape (self w)) as (_ & Hf & Ht & Hph & _).
    now rewrite Hf, Ht, Hph.
  - now rewrite (stop_not_running w Hr).
Qed.

(** [reset] does not undo the exchange of [from] and [to]: an endless
    round trip from [f] to [t] that is stopped after an odd number of legs
    is left with [from = t], [to = f] and phase 2. *)
Theorem stop_on_the_way_back (f t : number) (u : UserOptions)
    (ops : list op) :
  roundtrip (merge u) = true ->
  repeat (merge u) = RepBool true ->
  existsb is_stop ops = false ->
  Nat.odd (trips ops (create f t u)) = true ->
  let w := stop (run ops (create f t u)) in
  from (self w) = t /\ to (self w) = f /\ phase (self w) = Phase2.
Proof.
  intros Hrt Hrp Hs Hodd. cbv zeta.
  pose proof (shuttling_run (merge u) f t ops Hrt Hs _ O
                (create_shuttling f t u Hrp)) as (_ & _ & _ & _ & Hk).
  rewrite Nat.add_0_l in Hk. unfold leg_state in Hk.
  rewrite <- Nat.negb_odd, Hodd in Hk. cbn [negb] in Hk.
  destruct (stop_keeps_direction (run ops (create f t u)))
    as (-> & -> & ->).
  exact Hk.
Qed.

Lemma stop_on_the_way_back_witness :
  let w := stop (run [Start 1000; Tick 1501 1502]
                     (create (Int 0) (Int 100) back_and_forth)) in
  from (self w) = Int 100 /\ to (self w) = Int 0 /\ phase (self w) = Phase2.
Proof.
  apply (stop_on_the_way_back (Int 0) (Int 100) back_and_forth
           [Start 1000; Tick 1501 1502]).
  - run_code. reflexivity.
  - run_code. reflexivity.
  - run_code. reflexivity.
  - lazy -[interpolate position default_easing]. reflexivity.
Defined.

(** ** The values *)

Lemma default_easing_range (p : R) : (0 <= default_easing p <= 1)%R.
Proof.
  unfold default_easing. pose proof (COS_bound (p * PI)) as [Hl Hu]. lra.
Qed.

Lemma floor_between (f t : Z) (x : R) :
  (IZR f <= x <= IZR t)%R -> f <= floor x <= t.
Proof.
  intros [Hl Hu]. unfold floor.
  destruct (base_Int_part x) as [Hle Hgt]. split.
  - assert (H : (IZR (f - 1) < IZR (Int_part x))%R)
      by (rewrite minus_IZR; lra).
    apply lt_IZR in H. lia.
  - apply le_IZR. lra.
Qed.

(** With an easing function whose values lie between 0 and 1, as the
    default one's do, a value that is a number lies between [from] and [to],
    whatever the clock reads; and the value is a number as soon as the
    duration is not 0 and [_start] is a number or [null]. *)
Theorem value_between_from_and_to (i : Instance) (now f t : Z) :
  (forall p : R, (0 <= easing (options i) p <= 1)%R) ->
  from i = Int f ->
  to i = Int t ->
  (forall v : Z,
      interpolate i (position i now) = Int v ->
      Z.min f t <= v <= Z.max f t) /\
  (forall s : Z,
      ToNumber (_start i) = Int s ->
      duration (options i) <> 0 ->
      exists v : Z, interpolate i (position i now) = Int v).
Proof.
  intros He Hf Ht. split.
  - intros v. unfold interpolate. rewrite Hf, Ht.
    destruct (position i now) as [| | | p]; try discriminate.
    intros H. injection H as <-.
    specialize (He p). set (e := easing (options i) p) in *.
    destruct (Z.le_ge_cases f t) as [Hle | Hle].
    + rewrite Z.min_l, Z.max_r by lia. apply floor_between.
      apply IZR_le in Hle. nra.
    + rewrite Z.min_r, Z.max_l by lia. apply floor_between.
      apply IZR_le in Hle. nra.
  - intros s Hs Hd. unfold interpolate, position. rewrite Hf, Ht, Hs.
    destruct (gt (Int now) (ToNumber (end_ i))); [eauto |].
    cbn [sub div]. apply Z.eqb_neq in Hd. rewrite Hd. eauto.
Qed.

Lemma value_between_from_and_to_witness :
  from (self (start 1000 (create (Int 0) (Int 100) demo))) = Int 0 /\
  to (self (start 1000 (create (Int 0) (Int 100) demo))) = Int 100 /\
  ((forall v : Z,
       interpolate (self (start 1000 (create (Int 0) (Int 100) demo)))
         (position (self (start 1000 (create (Int 0) (Int 100) demo))) 1250)
       = Int v ->
       Z.min 0 100 <= v <= Z.max 0 100) /\
   (forall s : Z,
       ToNumber (_start (self (start 1000 (create (Int 0) (Int 100) demo))))
       = Int s ->
       duration (options (self (start 1000 (create (Int 0) (Int 100) demo))))
       <> 0 ->
       exists v : Z,
         interpolate (self (start 1000 (create (Int 0) (Int 100) demo)))
           (position (self (start 1000 (create (Int 0) (Int 100) demo))) 1250)
         = Int v)).
Proof.
  split; [run_code; reflexivity |].
  split; [run_code; reflexivity |].
  apply (value_between_from_and_to
           (self (start 1000 (create (Int 0) (Int 100) demo))) 1250 0 100).
  - intros p. exact (default_easing_range p).
  - run_code. reflexivity.
  - run_code. reflexivity.
Defined.

Lemma changing_snoc (l : list number) (v : number) :
  changing l = true ->
  (forall l' x, l = l' ++ [x] -> neq (Number x) v = true) ->
  changing (l ++ [v]) = true.
Proof.
  induction l as [| a [| b l] IH]; intros Hc Hlast.
  - reflexivity.
  - cbn [app changing]. rewrite (Hlast [] a eq_refl). reflexivity.
  - cbn [app changing] in *. apply andb_true_iff in Hc as [Hab Hc].
    rewrite Hab. cbn [andb]. apply IH; [exact Hc |].
    intros l' x Hx. apply (Hlast (a :: l') x). cbn. now rewrite Hx.
Qed.

(** The value [curr] remembers is the last one passed to [update]. *)
Lemma remembered_step (o : op) (w : World) :
  is_stop o = false ->
  changing (updated_values (log w)) = true ->
  (forall l x, updated_values (log w) = l ++ [x] ->
               curr (self w) = Number x) ->
  changing (updated_values (log (step o w))) = true /\
  (forall l x, updated_values (log (step o w)) = l ++ [x] ->
               curr (self (step o w)) = Number x).
Proof.
  intros Hs Hc Hl. destruct o as [ts | ts | ts | | now ts];
    try discriminate Hs; cbn [step].
  - unfold start. destruct (running (self w)); [now split |].
    destruct (is_number (_firstStart (self w))); cbn; now split.
  - unfold pause. destruct (paused (self w)); cbn; now split.
  - unfold resume. destruct (paused (self w)); cbn; now split.
  - destruct (armed w) as [| h0 a0] eqn:Ha; [now split |]. clear Ha h0 a0.
    destruct (paused (self w)) eqn:Hp.
    + unfold work. rewrite Hp.
      now rewrite clearInterval_self, clearInterval_log.
    + rewrite (work_unpaused now ts w Hp). cbv zeta.
      set (v := interpolate _ _). clearbody v.
      destruct w as [[[d rp rt ea ec up oe] f t ph s e c i p r fs tn wt tsv]
                       a n l].
      fields. subst.
      destruct (up && neq c v) eqn:Hch.
      * apply andb_true_iff in Hch as [_ Hneq].
        assert (Hc' : changing (updated_values l ++ [v]) = true).
        { apply changing_snoc; [exact Hc |].
          intros l' x Hx. now rewrite <- (Hl l' x Hx). }
        unfold checkTripFinished, do_roundtrip, start, checkEnd.
        destruct ec, i; updates;
          repeat match goal with
          | |- context [if ?b then _ else _] => destruct b; cbn
          end; rewrite ?updated_values_app; cbn; rewrite ?app_nil_r;
          (split; [exact Hc' |]);
          intros l' x Hx; apply app_inj_tail in Hx as [_ <-]; reflexivity.
      * unfold checkTripFinished, do_roundtrip, start, checkEnd.
        destruct ec, i; updates;
          repeat match goal with
          | |- context [if ?b then _ else _] => destruct b; cbn
          end; rewrite ?updated_values_app; cbn; rewrite ?app_nil_r;
          (split; [exact Hc | exact Hl]).
Qed.

(** Without [stop()], [update] is never invoked with a number equal to
    the one of its previous invocation. *)
Theorem update_never_repeats (f t : number) (u : UserOptions)
    (ops : list op) :
  existsb is_stop ops = false ->
  changing (updated_values (log (run ops (create f t u)))) = true.
Proof.
  intros Hs.
  assert (H : forall w,
             changing (updated_values (log w)) = true ->
             (forall l x, updated_values (log w) = l ++ [x] ->
                          curr (self w) = Number x) ->
             changing (updated_values (log (run ops w))) = true).
  { induction ops as [| o ops IH]; intros w Hc Hl; [exact Hc |].
    cbn in Hs. apply orb_false_iff in Hs as [Ho Hs].
    rewrite run_cons.
    destruct (remembered_step o w Ho Hc Hl) as [Hc' Hl'].
    now apply IH. }
  destruct (create_shape f t u)
    as (_ & _ & _ & _ & _ & _ & _ & _ & _ & _ & _ & _ & _ & _ & Hlog).
  cbv zeta in Hlog. apply H; rewrite Hlog; [reflexivity |].
  intros [| a l] x Hx; discriminate Hx.
Qed.

Lemma update_never_repeats_witness :
  changing (updated_values
              (log (run [Start 1000; Tick 1016 1016; Pause 1020; Resume 1030;
                         Tick 1046 1046; Tick 1600 1600]
                        (create (Int 0) (Int 100) demo)))) = true.
Proof.
  apply (update_never_repeats (Int 0) (Int 100) demo).
  run_code. reflexivity.
Defined.

(** A timer firing only adds to the log. *)
Lemma tick_log (now ts : Z) (w : World) :
  log (step (Tick now ts) w) = log w ++ emitted (Tick now ts) w.
Proof.
  unfold emitted.
  assert (H : exists es, log (step (Tick now ts) w) = log w ++ es).
  { cbn [step]. destruct (armed w) as [| h0 a0];
      [exists []; now rewrite app_nil_r |].
    destruct (paused (self w)) eqn:Hp.
    - unfold work. rewrite Hp, clearInterval_log.
      exists []. now rewrite app_nil_r.
    - rewrite (work_unpaused now ts w Hp). cbv zeta.
      set (v := interpolate _ _). clearbody v.
      destruct w as [[[d rp rt ea ec up oe] f t ph s e c i p r fs tn wt tsv]
                       a n l].
      fields. subst.
      set (ch := up && neq c v). clearbody ch.
      unfold checkTripFinished, do_roundtrip, start, checkEnd.
      destruct ch, ec, i; updates;
        repeat match goal with
        | |- context [if ?b then _ else _] => destruct b; cbn
        end; rewrite <- ?app_assoc; eexists; reflexivity. }
  destruct H as [es ->]. now rewrite skipn_length_app.
Qed.

Lemma travelling_run (f t e : Z) (x0 : number) (tk : list (Z * Z)) :
  forall w : World,
    travelling f t e (last_update (log w) x0) w ->
    let w' := run (ticks tk) w in
    if existsb (fun p => e <? fst p) tk
    then armed w' = [] /\ last_update (log w') x0 = Int t
    else travelling f t e (last_update (log w') x0) w'.
Proof.
  induction tk as [| [now ts] tk IH]; intros w Hw; [exact Hw |].
  cbv zeta. rewrite ticks_cons, run_cons. cbn [existsb fst].
  pose proof (travelling_tick f t e _ now ts w Hw) as Ht. cbv zeta in Ht.
  rewrite <- last_update_app, <- tick_log in Ht.
  destruct (e <? now); cbn [orb].
  - destruct Ht as [Ha Hx]. destruct (idle_run tk _ Ha) as [-> _].
    now split.
  - exact (IH _ Ht).
Qed.

Lemma start_one_trip (f t d ts : Z) (x : number) :
  travelling f t (ts + d) x (start ts (create (Int f) (Int t) (one_trip d))).
Proof.
  unfold travelling, start, create, reset, merge. cbn -[Z.add].
  repeat split; eauto using default_easing_1. discriminate.
Qed.

(** A single trip from [f] to [t] with an [update] callback: once a timer
    has fired after the end of the duration, whatever other firings there
    were, no timer is armed and the last value passed to [update] is [t]. *)
Theorem single_trip_arrives (f t d ts : Z) (x0 : number)
    (tk : list (Z * Z)) (now ts' : Z) :
  In (now, ts') tk ->
  ts + d < now ->
  let w := run (ticks tk)
               (start ts (create (Int f) (Int t) (one_trip d))) in
  armed w = [] /\ last_update (log w) x0 = Int t.
Proof.
  intros Hin Hlt. cbv zeta.
  pose proof (travelling_run f t (ts + d) x0 tk _
                (start_one_trip f t d ts _)) as H.
  cbv zeta in H.
  replace (existsb _ tk) with true in H; [exact H |].
  symmetry. apply existsb_exists. exists (now, ts').
  split; [exact Hin | now apply Z.ltb_lt].
Qed.

Lemma single_trip_arrives_witness :
  let w := run (ticks [(16, 16); (250, 250); (516, 516)])
               (start 0 (create (Int 0) (Int 100) (one_trip 500))) in
  armed w = [] /\ last_update (log w) NaN = Int 100.
Proof.
  apply (single_trip_arrives 0 100 500 0 NaN
           [(16, 16); (250, 250); (516, 516)] 516 516).
  - right. right. left. reflexivity.
  - reflexivity.
Defined.

End IpFacts.

(** * Properties of sslider.js *)

Module SsliderFacts.
Import Js Sslider.

(** ** Indices out of range *)

Lemma showIdx_out_of_range (js : bool) (ts idx : Z) (s : Slider) :
  idx < 0 \/ maxIdx s < idx ->
  showIdx js ts idx s = (s, RetUndefined).
Proof.
  intros H. unfold showIdx.
  destruct (Z.ltb_spec idx 0), (Z.ltb_spec (maxIdx s) idx);
    cbn; try reflexivity; lia.
Qed.

(** C2: [showIdx(idx)] with [idx] below 0 or above [maxIdx] leaves the
    whole slider, and so [currentIdx] and the offset [left], as it was;
    so do [next()] at the last index and [prev()] at index 0. *)
Theorem out_of_range_is_noop (js : bool) (ts : Z) (s : Slider) :
  (forall idx : Z,
      idx < 0 \/ maxIdx s < idx -> fst (showIdx js ts idx s) = s) /\
  (currentIdx (_state s) = maxIdx s -> fst (next js ts s) = s) /\
  (currentIdx (_state s) = 0 -> fst (prev js ts s) = s).
Proof.
  split; [| split].
  - intros idx H. now rewrite showIdx_out_of_range.
  - intros H. unfold next. rewrite showIdx_out_of_range; [reflexivity |].
    right. lia.
  - intros H. unfold prev. rewrite showIdx_out_of_range; [reflexivity |].
    left. lia.
Qed.

Lemma out_of_range_is_noop_witness :
  let s := fst (showIdx false 0 4 (five false 0)) in
  fst (showIdx false 0 7 s) = s /\ fst (next false 0 s) = s /\
  fst (prev false 0 (five false 0)) = five false 0.
Proof.
  intros s. split; [| split].
  - apply (proj1 (out_of_range_is_noop false 0 _)). right.
    vm_compute. reflexivity.
  - apply (proj1 (proj2 (out_of_range_is_noop false 0 _))).
    vm_compute. reflexivity.
  - apply (proj2 (proj2 (out_of_range_is_noop false 0 _))).
    vm_compute. reflexivity.
Defined.

(** C10: for [idx] below 0 or above [maxIdx], [showIdx(idx)] returns
    [undefined], so that calling any method on the result, as in
    [s.showIdx(idx).next()], raises a [TypeError] and leaves the slider as
    it was; [next()] at the last index and [prev()] at index 0 return
    [undefined] too. *)
Theorem out_of_range_returns_undefined (js : bool) (ts : Z) (s : Slider) :
  (forall idx : Z,
      idx < 0 \/ maxIdx s < idx ->
      snd (showIdx js ts idx s) = RetUndefined /\
      forall m : Slider -> Slider * result,
        chain m (call (showIdx js ts idx) s) = TypeError s) /\
  (currentIdx (_state s) = maxIdx s ->
   snd (next js ts s) = RetUndefined) /\
  (currentIdx (_state s) = 0 ->
   snd (prev js ts s) = RetUndefined).
Proof.
  split; [| split].
  - intros idx H. split.
    + now rewrite showIdx_out_of_range.
    + intros m. unfold call. now rewrite showIdx_out_of_range.
  - intros H. unfold next. rewrite showIdx_out_of_range; [reflexivity |].
    right. lia.
  - intros H. unfold prev. rewrite showIdx_out_of_range; [reflexivity |].
    left. lia.
Qed.

Lemma out_of_range_returns_undefined_witness :
  let s := five false 0 in
  chain (next false 0) (call (showIdx false 0 (-1)) s) = TypeError s /\
  snd (prev false 0 s) = RetUndefined /\
  snd (next false 0 (fst (showIdx false 0 4 s))) = RetUndefined.
Proof.
  intros s. split; [| split].
  - apply (proj1 (out_of_range_returns_undefined false 0 _)). left.
    reflexivity.
  - apply (proj2 (proj2 (out_of_range_returns_undefined false 0 _))).
    vm_compute. reflexivity.
  - apply (proj1 (proj2 (out_of_range_returns_undefined false 0 _))).
    vm_compute. reflexivity.
Defined.

Ltac sfields :=
  cbn [options maxIdx _state legend_items runs timeouts fresh
       currentIdx left timer autoDir userNavActive
       width height userNav auto interval duration legend legendActive
       set_state set_currentIdx set_left set_timer set_autoDir
       set_legend_items set_runs set_auto setLeftPos clearTimeout
       setTimeout fst snd] in *.

(** ** Automatic cycling *)

Lemma find_fresh (l : list (nat * Z)) (h : nat) (n : Z) :
  forallb (fun p => Nat.ltb (fst p) h) l = true ->
  find (fun p => Nat.eqb (fst p) h) (l ++ [(h, n)]) = Some (h, n).
Proof.
  induction l as [| [h' n'] l IH]; cbn; intros H.
  - now rewrite Nat.eqb_refl.
  - apply andb_true_iff in H as [Hlt H]. apply Nat.ltb_lt in Hlt.
    destruct (Nat.eqb_spec h' h); [lia | now apply IH].
Qed.

Lemma autoMove_currentIdx (s : Slider) :
  currentIdx (_state (autoMove s)) = currentIdx (_state s).
Proof.
  unfold autoMove. destruct (_ || _); reflexivity.
Qed.

Lemma showIdx_currentIdx (js : bool) (ts idx : Z) (s : Slider) :
  currentIdx (_state (fst (showIdx js ts idx s))) =
    if (idx <? 0) || (maxIdx s <? idx) then currentIdx (_state s) else idx.
Proof.
  unfold showIdx, animate. destruct (_ || _); [reflexivity |].
  destruct js; sfields; destruct (legend (options s)); sfields;
    reflexivity.
Qed.

Lemma autoMove_shape (s : Slider) :
  let dir' := if turns s then autoDir (_state s) * -1
              else autoDir (_state s) in
  autoDir (_state (autoMove s)) = dir' /\
  timer (_state (autoMove s)) = Some (fresh s) /\
  timeouts (autoMove s) =
    timeouts s ++ [(fresh s, currentIdx (_state s) + dir')] /\
  maxIdx (autoMove s) = maxIdx s.
Proof.
  unfold autoMove, turns.
  destruct (_ || _); sfields; repeat split; reflexivity.
Qed.

(** C5: [autoMove] adds [autoDir] to the current index; if the sum is
    above [maxIdx] or below 0 it first negates [autoDir]; it leaves the
    current index as it is and arms a timeout that captures the index so
    computed.  When that timeout expires, [showIdx] is called with the
    captured index, which becomes the current index if it is in range.
    With five images, from index 0 and direction 1, successive expirations
    show 1, 2, 3, 4 and then 3; the direction is still 1 after the third
    and is -1 after the fourth. *)
Theorem auto_cycle (js : bool) (ts : Z) (s : Slider) :
  timers_fresh s = true ->
  let cur := currentIdx (_state s) in
  let dir := autoDir (_state s) in
  let dir' := if turns s then dir * -1 else dir in
  let nextIdx := cur + dir' in
  currentIdx (_state (autoMove s)) = cur /\
  autoDir (_state (autoMove s)) = dir' /\
  maxIdx (autoMove s) = maxIdx s /\
  (exists h : nat,
      timer (_state (autoMove s)) = Some h /\
      find (fun p => Nat.eqb (fst p) h) (timeouts (autoMove s)) =
        Some (h, nextIdx)) /\
  currentIdx (_state (autoStep js ts (autoMove s))) =
    (if (nextIdx <? 0) || (maxIdx s <? nextIdx) then cur else nextIdx) /\
  (forall ts0 : Z,
      let s5 := fst (do_auto (Some true) (five js ts0)) in
      autoVisits js ts 5 s5 = [1; 2; 3; 4; 3] /\
      autoDir (_state (autoSteps js ts 3 s5)) = 1 /\
      autoDir (_state (autoSteps js ts 4 s5)) = -1).
Proof.
  intros Hfr. cbv zeta.
  destruct (autoMove_shape s) as (Hd & Ht & Hto & Hm). cbv zeta in *.
  set (dir' := if turns s then autoDir (_state s) * -1
               else autoDir (_state s)) in *.
  split; [apply autoMove_currentIdx |].
  split; [exact Hd |]. split; [exact Hm |].
  assert (Hfind : find (fun p => Nat.eqb (fst p) (fresh s))
                    (timeouts (autoMove s)) =
                  Some (fresh s, currentIdx (_state s) + dir')).
  { rewrite Hto. apply find_fresh. exact Hfr. }
  split; [exists (fresh s); split; [exact Ht | exact Hfind] |].
  split.
  - unfold autoStep. rewrite Ht. unfold expire. rewrite Hfind.
    rewrite autoMove_currentIdx, showIdx_currentIdx.
    sfields. rewrite Hm, autoMove_currentIdx. reflexivity.
  - intros ts0. destruct js; vm_compute; repeat split; reflexivity.
Qed.

Lemma auto_cycle_witness :
  let s := fst (showIdx false 0 4 (five false 0)) in
  autoDir (_state (autoMove s)) = -1 /\
  currentIdx (_state (autoStep false 0 (autoMove s))) = 3.
Proof.
  intros s.
  assert (H : timers_fresh s = true) by (vm_compute; reflexivity).
  destruct (auto_cycle false 0 s H) as (_ & Hd & _ & _ & Hs & _).
  split; [exact Hd | exact Hs].
Defined.

Import IpFacts.

(** ** Transitions *)

Lemma deliver_frame (es : list Ip.event) : forall s : Slider,
  options (deliver es s) = options s /\
  maxIdx (deliver es s) = maxIdx s /\
  runs (deliver es s) = runs s /\
  currentIdx (_state (deliver es s)) = currentIdx (_state s) /\
  left (_state (deliver es s)) = Ip.last_update es (left (_state s)).
Proof.
  induction es as [| e es IH]; intros s; [cbn; auto |].
  unfold deliver, Ip.last_update in *. cbn [fold_left].
  destruct (IH (match e with Ip.Update v => setLeftPos v s | _ => s end))
    as (Ho & Hm & Hr & Hc & Hl).
  rewrite Ho, Hm, Hr, Hc, Hl. destruct e; repeat split; reflexivity.
Qed.

Lemma replace_nth {A} (l : list A) (k : nat) (a : A) :
  nth_error l k = Some a -> firstn k l ++ a :: skipn (S k) l = l.
Proof.
  revert k. induction l as [| b l IH]; intros [| k] H; try discriminate.
  - cbn in *. now injection H as ->.
  - cbn in *. f_equal. now apply IH.
Qed.

Lemma replace_last {A} (l : list A) (a b : A) :
  firstn (length l) (l ++ [a]) ++ b :: skipn (S (length l)) (l ++ [a]) =
  l ++ [b].
Proof.
  induction l as [| c l IH]; [reflexivity |]. cbn. f_equal. exact IH.
Qed.

Lemma unarmed_nth (l : list Ip.World) (k : nat) (w : Ip.World) :
  forallb unarmed l = true -> nth_error l k = Some w -> Ip.armed w = [].
Proof.
  intros Hall Hk. apply nth_error_In in Hk.
  rewrite forallb_forall in Hall. specialize (Hall _ Hk).
  unfold unarmed in Hall. now destruct (Ip.armed w).
Qed.

Lemma transition_tick (o : Options) (mx : Z) (old : list Ip.World)
    (idx l off e : Z) (arrived : bool) (k : nat) (now ts : Z)
    (s : Slider) :
  transition o mx old idx l off e arrived s ->
  transition o mx old idx l off e
    (arrived || (Nat.eqb k (length old) && (e <? now)))
    (ipTick k now ts s).
Proof.
  intros (Ho & Hm & Hc & Hold & w & Hr & Hw).
  unfold ipTick. rewrite Hr.
  destruct (Nat.lt_trichotomy k (length old)) as [Hlt | [Heq | Hgt]].
  - (* an interpolator of an earlier transition *)
    rewrite nth_error_app1 by exact Hlt.
    destruct (nth_error old k) as [w0 |] eqn:Hk;
      [| apply nth_error_None in Hk; lia].
    pose proof (unarmed_nth old k w0 Hold Hk) as Ha.
    change (skipn (length (Ip.log w0))
              (Ip.log (Ip.step (Ip.Tick now ts) w0)))
      with (Ip.emitted (Ip.Tick now ts) w0).
    rewrite (idle_emits_nothing now ts w0 Ha).
    destruct (idle_tick now ts w0 Ha) as [-> _].
    rewrite replace_nth
      by (rewrite nth_error_app1 by exact Hlt; exact Hk).
    cbn [deliver fold_left].
    replace (Nat.eqb k (length old)) with false
      by (symmetry; apply Nat.eqb_neq; lia).
    rewrite orb_false_r.
    unfold transition. sfields.
    refine (conj Ho (conj Hm (conj Hc (conj Hold _)))).
    exists w. split; [reflexivity | assumption].
  - (* the interpolator of this transition *)
    subst k. rewrite nth_error_app2, Nat.sub_diag by lia.
    cbn [nth_error]. rewrite replace_last, Nat.eqb_refl. cbn [andb].
    change (skipn (length (Ip.log w))
              (Ip.log (Ip.step (Ip.Tick now ts) w)))
      with (Ip.emitted (Ip.Tick now ts) w).
    set (es := Ip.emitted (Ip.Tick now ts) w).
    set (w' := Ip.step (Ip.Tick now ts) w).
    destruct (deliver_frame es (set_runs (old ++ [w']) s))
      as (Ho' & Hm' & Hr' & Hc' & Hl').
    unfold transition. rewrite Ho', Hm', Hr', Hc', Hl'. sfields.
    refine (conj Ho (conj Hm (conj Hc (conj Hold _)))).
    exists w'. split; [reflexivity |].
    destruct arrived; cbn [orb].
    + destruct Hw as [Ha Hlf].
      subst es w'.
      rewrite (idle_emits_nothing now ts w Ha).
      destruct (idle_tick now ts w Ha) as [-> _]. now split.
    + pose proof (travelling_tick l off e _ now ts w Hw) as Ht.
      cbv zeta in Ht. destruct (e <? now); exact Ht.
  - (* no such interpolator *)
    rewrite (proj2 (nth_error_None _ _))
      by (rewrite length_app; cbn; lia).
    replace (Nat.eqb k (length old)) with false
      by (symmetry; apply Nat.eqb_neq; lia).
    rewrite orb_false_r.
    unfold transition.
    refine (conj Ho (conj Hm (conj Hc (conj Hold _)))).
    exists w. split; assumption.
Qed.

Lemma transition_ticks (o : Options) (mx : Z) (old : list Ip.World)
    (idx l off e : Z) (ticks : list (nat * Z * Z)) :
  forall (s : Slider) (arrived : bool),
    transition o mx old idx l off e arrived s ->
    transition o mx old idx l off e
      (arrived ||
       existsb (fun t => match t with
                         | (k, now, _) =>
                             Nat.eqb k (length old) && (e <? now)
                         end) ticks)
      (ipTicks ticks s).
Proof.
  induction ticks as [| [[k now] ts] ticks IH]; intros s arrived H.
  - cbn. now rewrite orb_false_r.
  - cbn [existsb]. rewrite orb_assoc.
    apply (IH (ipTick k now ts s)). now apply transition_tick.
Qed.

Lemma showIdx_starts_transition (ts idx l : Z) (s : Slider) :
  0 <= idx <= maxIdx s ->
  at_rest s = true ->
  left (_state s) = Int l ->
  transition (options s) (maxIdx s) (runs s) idx l
    (-1 * idx * width (options s)) (ts + duration (options s)) false
    (fst (showIdx true ts idx s)).
Proof.
  intros Hi Hr Hl. unfold showIdx, animate.
  destruct (Z.ltb_spec idx 0); [lia |].
  destruct (Z.ltb_spec (maxIdx s) idx); [lia |].
  cbn [orb]. rewrite Hl. unfold transition.
  destruct (legend (options s)) eqn:Hlg; sfields; rewrite ?Hlg; sfields.
  all: refine (conj eq_refl (conj eq_refl (conj eq_refl (conj Hr _)))).
  all: eexists; split; [reflexivity | apply start_travelling].
Qed.

(** C1 (as amended): [showIdx(idx)] with [idx] from 0 to [maxIdx] sets
    [currentIdx] to [idx].  Without the JavaScript interpolation it sets
    the offset [left] to [-idx * width] at once.  With it, called on a
    slider whose earlier transitions have ended and whose offset is a
    number, it starts an interpolator; once a timer of that interpolator
    has fired after the end of the duration, whatever other firings there
    were, every transition has ended, the offset is [-idx * width] and
    [currentIdx] is [idx]. *)
Theorem showIdx_reaches_offset (js : bool) (ts idx : Z) (s : Slider) :
  0 <= idx <= maxIdx s ->
  let s1 := fst (showIdx js ts idx s) in
  let target := Int (- idx * width (options s)) in
  currentIdx (_state s1) = idx /\
  (js = false -> left (_state s1) = target) /\
  (js = true ->
   at_rest s = true ->
   forall l : Z, left (_state s) = Int l ->
   forall (ticks : list (nat * Z * Z)) (now ts' : Z),
     In (length (runs s), now, ts') ticks ->
     ts + duration (options s) < now ->
     let s2 := ipTicks ticks s1 in
     at_rest s2 = true /\
     left (_state s2) = target /\
     currentIdx (_state s2) = idx /\
     maxIdx s2 = maxIdx s /\
     options s2 = options s /\
     length (runs s2) = S (length (runs s))).
Proof.
  intros Hi. cbv zeta.
  replace (- idx * width (options s)) with (-1 * idx * width (options s))
    by lia.
  split; [| split].
  - rewrite showIdx_currentIdx.
    destruct (Z.ltb_spec idx 0); [lia |].
    destruct (Z.ltb_spec (maxIdx s) idx); [lia | reflexivity].
  - intros ->. unfold showIdx, animate.
    destruct (Z.ltb_spec idx 0); [lia |].
    destruct (Z.ltb_spec (maxIdx s) idx); [lia |].
    cbn [orb]. destruct (legend (options s)) eqn:Hlg; sfields;
      rewrite ?Hlg; reflexivity.
  - intros -> Hr l Hl ticks now ts' Hin Hlt.
    pose proof (transition_ticks _ _ _ _ _ _ _ ticks _ _
                  (showIdx_starts_transition ts idx l s Hi Hr Hl)) as H.
    cbn [orb] in H.
    replace (existsb _ ticks) with true in H.
    2: { symmetry. apply existsb_exists.
         exists (length (runs s), now, ts'). split; [exact Hin |].
         rewrite Nat.eqb_refl. cbn [andb]. apply Z.ltb_lt. exact Hlt. }
    destruct H as (Ho & Hm & Hc & Hold & w & Hrs & Ha & Hlf).
    unfold at_rest. rewrite Hrs, forallb_app, length_app, Hold.
    unfold at_rest in Hr. cbn. unfold unarmed. rewrite Ha.
    repeat split; auto. lia.
Qed.

Lemma showIdx_options (js : bool) (ts idx : Z) (s : Slider) :
  options (fst (showIdx js ts idx s)) = options s.
Proof.
  unfold showIdx, animate. destruct (_ || _); [reflexivity |].
  destruct js; sfields; destruct (legend (options s)) eqn:Hlg; sfields;
    rewrite ?Hlg; reflexivity.
Qed.

Lemma five_is_shown (js : bool) (ts : Z) :
  five js ts = fst (showIdx js ts 0 (blank 5 defaultOptions)).
Proof.
  unfold five, create. cbv zeta. now rewrite showIdx_options.
Qed.

Lemma showIdx_reaches_offset_witness :
  left (_state (fst (showIdx false 0 3 (five false 0)))) = Int (-900) /\
  let rested := ipTicks [(0%nat, 316, 316)] (five true 0) in
  let shown :=
    ipTicks [(1%nat, 336, 336); (0%nat, 340, 340); (1%nat, 636, 636)]
            (fst (showIdx true 320 3 rested)) in
  at_rest shown = true /\
  left (_state shown) = Int (-900) /\
  currentIdx (_state shown) = 3.
Proof.
  split.
  - assert (Hi : 0 <= 3 <= maxIdx (five false 0))
      by (vm_compute; split; discriminate).
    exact (proj1 (proj2 (showIdx_reaches_offset false 0 3 _ Hi)) eq_refl).
  - cbv zeta. rewrite five_is_shown.
    assert (H0 : 0 <= 0 <= maxIdx (blank 5 defaultOptions))
      by (vm_compute; split; discriminate).
    destruct (proj2 (proj2 (showIdx_reaches_offset true 0 0 _ H0))
                eq_refl eq_refl 0 eq_refl
                [(0%nat, 316, 316)] 316 316
                (or_introl eq_refl) eq_refl)
      as (Hr & Hl & _ & Hm & Ho & Hn).
    set (rested := ipTicks [(0%nat, 316, 316)]
                     (fst (showIdx true 0 0 (blank 5 defaultOptions))))
      in *.
    assert (H3 : 0 <= 3 <= maxIdx rested)
      by (rewrite Hm; vm_compute; split; discriminate).
    assert (Hin : In (length (runs rested), 636, 636)
                     [(1%nat, 336, 336); (0%nat, 340, 340);
                      (1%nat, 636, 636)])
      by (rewrite Hn; right; right; left; reflexivity).
    assert (Hlt : 320 + duration (options rested) < 636)
      by (rewrite Ho; reflexivity).
    destruct (proj2 (proj2 (showIdx_reaches_offset true 320 3 _ H3))
                eq_refl Hr 0 Hl _ 636 636 Hin Hlt)
      as (Hr' & Hl' & Hc' & _).
    rewrite Ho in Hl'.
    split; [exact Hr' | split; [exact Hl' | exact Hc']].
Defined.

(** C1 as stated, for every slider, fails with the JavaScript
    interpolation when [showIdx] is called during a
    transition: [animate] starts a new interpolator and leaves the one
    under way running, and both write the offset.  Five images of width
    300, at rest at index 0; [showIdx(3)] and, 10 ms later, before any
    timer has fired, [showIdx(1)]; the timer of the second interpolator
    fires past the end of its duration, then the timer of the first one.
    Every transition has ended, [currentIdx] is 1, and the offset is
    [-900], not [-300]. *)
Lemma overlapping_transitions_counterexample :
  let rested := ipTicks [(0%nat, 316, 316)] (five true 0) in
  let s := ipTicks [(2%nat, 631, 631); (1%nat, 632, 632)]
             (fst (showIdx true 330 1 (fst (showIdx true 320 3 rested)))) in
  at_rest rested = true /\
  at_rest s = true /\
  currentIdx (_state s) = 1 /\
  left (_state s) = Int (-900).
Proof.
  cbv -[Ip.interpolate Ip.position Ip.default_easing IZR Rplus Rminus Rmult].
  unfold Ip.interpolate, Ip.position.
  cbn [Ip.options Ip.from Ip.to Ip._start Ip.end_ Ip.duration Ip.easing
       gt ToNumber Z.ltb Z.compare Pos.compare Pos.compare_cont].
  rewrite default_easing_1.
  replace (IZR 0 + (IZR 0 - IZR 0) * 1)%R with (IZR 0) by lra.
  rewrite floor_IZR.
  cbn [Ip.options Ip.from Ip.to Ip._start Ip.end_ Ip.duration Ip.easing
       gt ToNumber Z.ltb Z.compare Pos.compare Pos.compare_cont].
  replace (IZR 0 + (IZR (-900) - IZR 0) * 1)%R with (IZR (-900)) by lra.
  rewrite floor_IZR.
  repeat split.
Qed.

(** ** What a slider keeps *)

Lemma showIdx_frame (js : bool) (ts idx : Z) (s : Slider) :
  let s' := fst (showIdx js ts idx s) in
  maxIdx s' = maxIdx s /\
  autoDir (_state s') = autoDir (_state s) /\
  timeouts s' = timeouts s /\
  fresh s' = fresh s /\
  length (legend_items s') = length (legend_items s).
Proof.
  unfold showIdx, animate. destruct (_ || _); [cbn; auto |].
  destruct js; sfields; destruct (legend (options s)) eqn:Hlg; sfields;
    rewrite ?Hlg; sfields; rewrite ?length_map, ?length_seq; auto.
Qed.

Lemma showIdx_sound (js : bool) (n : nat) (o : Options) (ts idx : Z)
    (s : Slider) :
  sound js n o s -> sound js n o (fst (showIdx js ts idx s)).
Proof.
  intros (Hm & Hc & Hd & Hw & Hlg & Hfr & Hli & Hcss).
  destruct (showIdx_frame js ts idx s) as (Hm' & Hd' & Hto' & Hfr' & Hlen').
  cbv zeta in *.
  pose proof (showIdx_currentIdx js ts idx s) as Hc'.
  pose proof (showIdx_options js ts idx s) as Ho'.
  unfold sound. rewrite Hm', Hd', Ho', Hc'.
  unfold timers_fresh in *. rewrite Hto', Hfr'.
  refine (conj Hm (conj _ (conj Hd (conj Hw (conj Hlg (conj Hfr _)))))).
  - destruct (Z.ltb_spec idx 0); [exact Hc |].
    destruct (Z.ltb_spec (maxIdx s) idx); [exact Hc |]. cbn. lia.
  - unfold showIdx, animate.
    destruct ((idx <? 0) || (maxIdx s <? idx)); [split; assumption |].
    split.
    + intros Hl. specialize (Hli Hl).
      destruct js; sfields; rewrite Hlg, Hl; sfields;
        rewrite Hli, length_map, length_seq; reflexivity.
    + intros ->. destruct (Hcss eq_refl) as [Hr Hlf].
      sfields. rewrite Hw. destruct (legend (options s)); sfields;
        split; auto.
Qed.

Lemma forallb_weaken {A} (p q : A -> bool) (l : list A) :
  (forall a, p a = true -> q a = true) ->
  forallb p l = true -> forallb q l = true.
Proof.
  intros Hpq. rewrite !forallb_forall. auto.
Qed.

Lemma forallb_filter {A} (p f : A -> bool) (l : list A) :
  forallb p l = true -> forallb p (filter f l) = true.
Proof.
  rewrite !forallb_forall. intros H a Ha. apply filter_In in Ha. now apply H.
Qed.

Lemma autoMove_sound (js : bool) (n : nat) (o : Options) (s : Slider) :
  sound js n o s -> sound js n o (autoMove s).
Proof.
  intros (Hm & Hc & Hd & Hw & Hlg & Hfr & Hli & Hcss).
  unfold sound, timers_fresh, autoMove in *.
  assert (Hfr' : forallb (fun p => Nat.ltb (fst p) (S (fresh s)))
                   (timeouts s) = true).
  { revert Hfr. apply forallb_weaken. intros a Ha.
    apply Nat.ltb_lt in Ha. apply Nat.ltb_lt. lia. }
  destruct (_ || _); sfields; rewrite forallb_app, Hfr'; cbn [forallb fst];
    rewrite (proj2 (Nat.ltb_lt _ _) (Nat.lt_succ_diag_r _)); cbn [andb].
  - refine (conj Hm (conj Hc (conj _ (conj Hw (conj Hlg (conj eq_refl
             (conj Hli Hcss))))))). lia.
  - exact (conj Hm (conj Hc (conj Hd (conj Hw (conj Hlg (conj eq_refl
             (conj Hli Hcss))))))).
Qed.

Lemma clearTimeout_sound (js : bool) (n : nat) (o : Options) (h : option nat)
    (s : Slider) :
  sound js n o s -> sound js n o (clearTimeout h s).
Proof.
  intros H. destruct h as [h |]; [| exact H].
  destruct H as (Hm & Hc & Hd & Hw & Hlg & Hfr & Hli & Hcss).
  unfold sound, timers_fresh in *. sfields.
  refine (conj Hm (conj Hc (conj Hd (conj Hw (conj Hlg (conj _
           (conj Hli Hcss))))))).
  now apply forallb_filter.
Qed.

Lemma set_auto_sound (js : bool) (n : nat) (o : Options) (b : bool)
    (s : Slider) :
  sound js n o s -> sound js n o (set_auto b s).
Proof.
  intros H. exact H.
Qed.

Lemma deliver_rest (es : list Ip.event) : forall s : Slider,
  autoDir (_state (deliver es s)) = autoDir (_state s) /\
  timeouts (deliver es s) = timeouts s /\
  fresh (deliver es s) = fresh s /\
  legend_items (deliver es s) = legend_items s.
Proof.
  induction es as [| e es IH]; intros s; [cbn; auto |].
  unfold deliver in *. cbn [fold_left].
  destruct (IH (match e with Ip.Update v => setLeftPos v s | _ => s end))
    as (Hd & Ht & Hf & Hl).
  rewrite Hd, Ht, Hf, Hl. destruct e; repeat split; reflexivity.
Qed.

Lemma ipTick_sound (js : bool) (n : nat) (o : Options) (k : nat)
    (now ts : Z) (s : Slider) :
  sound js n o s -> sound js n o (ipTick k now ts s).
Proof.
  intros H. unfold ipTick.
  destruct (nth_error (runs s) k) as [w |] eqn:Hk; [| exact H].
  destruct H as (Hm & Hc & Hd & Hw & Hlg & Hfr & Hli & Hcss).
  destruct js.
  - set (es := skipn _ _). set (s1 := set_runs _ s).
    destruct (deliver_frame es s1) as (Ho' & Hm' & _ & Hc' & _).
    destruct (deliver_rest es s1) as (Hd' & Ht' & Hf' & Hl').
    unfold sound, timers_fresh. rewrite Ho', Hm', Hc', Hd', Ht', Hf', Hl'.
    subst s1. sfields.
    refine (conj Hm (conj Hc (conj Hd (conj Hw (conj Hlg (conj Hfr
             (conj Hli _))))))).
    discriminate.
  - destruct (Hcss eq_refl) as [Hr _]. rewrite Hr in Hk.
    destruct k; discriminate Hk.
Qed.

Lemma step_sound (js : bool) (n : nat) (o : Options) (x : op) (s : Slider) :
  sound js n o s -> sound js n o (step js x s).
Proof.
  intros H. destruct x as [ts idx | ts | ts | arg | ts h | k now ts];
    cbn [step].
  - now apply showIdx_sound.
  - now apply showIdx_sound.
  - now apply showIdx_sound.
  - unfold do_auto. cbn [fst]. destruct arg as [[|] |].
    + now apply autoMove_sound, set_auto_sound.
    + now apply clearTimeout_sound, set_auto_sound.
    + now apply autoMove_sound, set_auto_sound.
  - unfold expire. destruct (find _ _) as [[h' idx] |]; [| exact H].
    now apply autoMove_sound, showIdx_sound, clearTimeout_sound.
  - now apply ipTick_sound.
Qed.

Lemma create_sound (js : bool) (ts : Z) (n : nat) (o : Options) :
  (1 <= n)%nat -> sound js n o (create js ts n o).
Proof.
  intros Hn. unfold create. cbv zeta.
  assert (H : sound js n o (fst (showIdx js ts 0 (blank n o)))).
  { unfold showIdx, animate, blank. sfields.
    destruct (Z.ltb_spec (Z.of_nat n - 1) 0); [lia |]. cbn [orb Z.ltb Z.compare].
    unfold sound, timers_fresh.
    destruct js, (legend o) eqn:Hlg; sfields; rewrite ?Hlg; sfields;
      rewrite ?repeat_length; cbn [forallb];
      (split; [reflexivity |]); (split; [lia |]);
      (split; [left; reflexivity |]);
      repeat split; try reflexivity; try discriminate;
      try (f_equal; lia); try exact Hlg. }
  destruct (auto (options (fst (showIdx js ts 0 (blank n o))))); [| exact H].
  unfold do_auto. cbn [fst]. now apply autoMove_sound, set_auto_sound.
Qed.

Lemma run_sound (js : bool) (n : nat) (o : Options) (ops : list op) :
  forall s : Slider, sound js n o s -> sound js n o (run js ops s).
Proof.
  induction ops as [| x ops IH]; intros s H; [exact H |].
  cbn. apply IH. now apply step_sound.
Qed.

(** The current index of a slider with at least one image is always an
    index of an image, whatever is called and whichever timers fire. *)
Theorem index_stays_in_range (js : bool) (ts : Z) (n : nat) (o : Options)
    (ops : list op) :
  (1 <= n)%nat ->
  let s := run js ops (create js ts n o) in
  maxIdx s = Z.of_nat n - 1 /\
  0 <= currentIdx (_state s) <= maxIdx s.
Proof.
  intros Hn.
  destruct (run_sound js n o ops _ (create_sound js ts n o Hn))
    as (Hm & Hc & _). now split.
Qed.

Lemma index_stays_in_range_witness :
  let s := run false [Next 0; Next 0; ShowIdx 0 9; Prev 0; Auto None;
                      Expire 0 0; Prev 0; Prev 0; Prev 0]
               (create false 0 3 defaultOptions) in
  maxIdx s = 2 /\ 0 <= currentIdx (_state s) <= maxIdx s.
Proof.
  apply (index_stays_in_range false 0 3 defaultOptions). lia.
Defined.

(** The direction of automatic cycling is always 1 or -1. *)
Theorem direction_is_unit (js : bool) (ts : Z) (n : nat) (o : Options)
    (ops : list op) :
  (1 <= n)%nat ->
  let s := run js ops (create js ts n o) in
  autoDir (_state s) = 1 \/ autoDir (_state s) = -1.
Proof.
  intros Hn.
  destruct (run_sound js n o ops _ (create_sound js ts n o Hn))
    as (_ & _ & Hd & _). exact Hd.
Qed.

Lemma direction_is_unit_witness :
  let s := run true [Auto None; Expire 10 0; Expire 20 1; Auto (Some false)]
               (create true 0 2 defaultOptions) in
  autoDir (_state s) = 1 \/ autoDir (_state s) = -1.
Proof.
  apply (direction_is_unit true 0 2 defaultOptions). lia.
Defined.

(** With the legend, the item marked as selected is always the one of the
    current index, and the legend keeps one item per image. *)
Theorem legend_marks_current (js : bool) (ts : Z) (n : nat) (o : Options)
    (ops : list op) :
  (1 <= n)%nat ->
  legend o = true ->
  let s := run js ops (create js ts n o) in
  legend_items s =
    map (fun i => Z.of_nat i =? currentIdx (_state s)) (seq 0 n).
Proof.
  intros Hn Hl.
  destruct (run_sound js n o ops _ (create_sound js ts n o Hn))
    as (_ & _ & _ & _ & _ & _ & Hli & _). exact (Hli Hl).
Qed.

Lemma legend_marks_current_witness :
  let s := run false [Next 0; Next 0; Next 0; Prev 0]
               (create false 0 3 defaultOptions) in
  legend_items s =
    map (fun i => Z.of_nat i =? currentIdx (_state s)) (seq 0 3).
Proof.
  apply (legend_marks_current false 0 3 defaultOptions); [lia | reflexivity].
Defined.

(** Without the JavaScript interpolation no interpolator is ever created,
    and the offset is always [-currentIdx * width]. *)
Theorem css_offset_follows_index (ts : Z) (n : nat) (o : Options)
    (ops : list op) :
  (1 <= n)%nat ->
  let s := run false ops (create false ts n o) in
  runs s = [] /\
  left (_state s) = Int (- currentIdx (_state s) * width o).
Proof.
  intros Hn.
  destruct (run_sound false n o ops _ (create_sound false ts n o Hn))
    as (_ & _ & _ & _ & _ & _ & _ & Hcss).
  destruct (Hcss eq_refl) as [Hr Hl]. split; [exact Hr |].
  rewrite Hl. f_equal; lia.
Qed.

Lemma css_offset_follows_index_witness :
  let s := run false [Next 0; ShowIdx 0 4; IpTick 0 16 16; Prev 0]
               (create false 0 5 defaultOptions) in
  runs s = [] /\
  left (_state s) = Int (- currentIdx (_state s) * 300).
Proof.
  apply (css_offset_follows_index 0 5 defaultOptions). lia.
Defined.

Lemma autoStep_after_autoMove (js : bool) (ts : Z) (s : Slider) :
  timers_fresh s = true ->
  let dir' := if turns s then autoDir (_state s) * -1
              else autoDir (_state s) in
  let nextIdx := currentIdx (_state s) + dir' in
  currentIdx (_state (autoStep js ts (autoMove s))) =
    if (nextIdx <? 0) || (maxIdx s <? nextIdx)
    then currentIdx (_state s) else nextIdx.
Proof.
  intros Hfr. cbv zeta.
  destruct (autoMove_shape s) as (Hd & Ht & Hto & Hm). cbv zeta in *.
  unfold autoStep. rewrite Ht. unfold expire. rewrite Hto.
  rewrite (find_fresh _ _ _ Hfr).
  rewrite autoMove_currentIdx, showIdx_currentIdx.
  sfields. rewrite Hm, autoMove_currentIdx. reflexivity.
Qed.

(** With at least two images, each step of automatic cycling moves the
    current index by exactly one, within the images. *)
Theorem auto_step_moves_by_one (js : bool) (ts ts' : Z) (n : nat)
    (o : Options) (ops : list op) :
  (2 <= n)%nat ->
  let s := run js ops (create js ts n o) in
  let s' := autoStep js ts' (autoMove s) in
  Z.abs (currentIdx (_state s') - currentIdx (_state s)) = 1 /\
  0 <= currentIdx (_state s') <= maxIdx s.
Proof.
  intros Hn. cbv zeta.
  assert (Hn1 : (1 <= n)%nat) by lia.
  destruct (run_sound js n o ops _ (create_sound js ts n o Hn1))
    as (Hm & Hc & Hd & _ & _ & Hfr & _).
  rewrite (autoStep_after_autoMove js ts' _ Hfr). unfold turns.
  set (s := run js ops (create js ts n o)) in *.
  set (cur := currentIdx (_state s)) in *.
  set (dir := autoDir (_state s)) in *.
  set (mx := maxIdx s) in *.
  destruct (Z.ltb_spec mx (cur + dir)), (Z.ltb_spec (cur + dir) 0);
    cbn [orb];
    match goal with
    | |- context [if (?a <? 0) || (mx <? ?a) then _ else _] =>
        destruct (Z.ltb_spec a 0), (Z.ltb_spec mx a); cbn [orb]
    end; lia.
Qed.

Lemma auto_step_moves_by_one_witness :
  let s := run true [ShowIdx 5 2] (create true 0 3 defaultOptions) in
  let s' := autoStep true 9 (autoMove s) in
  Z.abs (currentIdx (_state s') - currentIdx (_state s)) = 1 /\
  0 <= currentIdx (_state s') <= maxIdx s.
Proof.
  apply (auto_step_moves_by_one true 0 9 3 defaultOptions). lia.
Defined.

Lemma filter_fresh (l : list (nat * Z)) (h : nat) (n : Z) :
  forallb (fun p => Nat.ltb (fst p) h) l = true ->
  filter (fun p => negb (Nat.eqb (fst p) h)) (l ++ [(h, n)]) = l.
Proof.
  induction l as [| [h' n'] l IH]; cbn; intros H.
  - now rewrite Nat.eqb_refl.
  - apply andb_true_iff in H as [Hlt H]. apply Nat.ltb_lt in Hlt.
    destruct (Nat.eqb_spec h' h); [lia |]. cbn. now rewrite IH.
Qed.

(** [auto(false)] after [auto()] or [auto(true)] disarms the timeout that
    call armed: the armed timeouts are those from before, and the option is
    off. *)
Theorem auto_off_cancels (arg : option bool) (s : Slider) :
  timers_fresh s = true ->
  arg <> Some false ->
  let s' := fst (do_auto (Some false) (fst (do_auto arg s))) in
  timeouts s' = timeouts s /\ auto (options s') = false.
Proof.
  intros Hfr Harg. cbv zeta.
  assert (Hon : fst (do_auto arg s) = autoMove (set_auto true s))
    by (destruct arg as [[|] |]; [reflexivity | contradiction | reflexivity]).
  rewrite Hon. unfold do_auto. cbn [fst].
  destruct (autoMove_shape (set_auto true s)) as (_ & Ht & Hto & _).
  cbv zeta in *. sfields. rewrite Ht. sfields.
  split; [| reflexivity].
  rewrite Hto. apply filter_fresh. exact Hfr.
Qed.

Lemma auto_off_cancels_witness :
  let s := five false 0 in
  timeouts (fst (do_auto (Some false) (fst (do_auto None s)))) = timeouts s.
Proof.
  apply (auto_off_cancels None (five false 0));
    [vm_compute; reflexivity | discriminate].
Defined.

(** [auto(false)] disarms only the timeout armed last: after two calls
    of [auto()], the timeout of the first stays armed with the option off,
    and when it expires another one is armed. *)
Theorem auto_twice_keeps_cycling (js : bool) (ts : Z) (s : Slider) :
  timers_fresh s = true ->
  let s' := fst (do_auto (Some false)
                   (fst (do_auto None (fst (do_auto None s))))) in
  auto (options s') = false /\
  (exists nextIdx : Z, timeouts s' = timeouts s ++ [(fresh s, nextIdx)]) /\
  timeouts (expire js ts (fresh s) s') <> [].
Proof.
  intros Hfr. cbv zeta. unfold do_auto. cbn [fst].
  set (s1 := autoMove (set_auto true s)).
  destruct (autoMove_shape (set_auto true s)) as (_ & Ht1 & Hto1 & _).
  cbv zeta in Hto1. fold s1 in Ht1, Hto1. sfields.
  assert (Hfr1 : timers_fresh (set_auto true s1) = true).
  { unfold timers_fresh. sfields.
    change (fresh (set_auto true s1)) with (fresh s1).
    change (timeouts (set_auto true s1)) with (timeouts s1).
    unfold s1, autoMove. destruct (_ || _); sfields;
      rewrite forallb_app; cbn [forallb fst];
      rewrite (proj2 (Nat.ltb_lt _ _) (Nat.lt_succ_diag_r _)); cbn [andb];
      rewrite andb_true_r; revert Hfr; apply forallb_weaken; intros a Ha;
      apply Nat.ltb_lt in Ha; apply Nat.ltb_lt; lia. }
  set (s2 := autoMove (set_auto true s1)).
  destruct (autoMove_shape (set_auto true s1)) as (_ & Ht2 & Hto2 & _).
  cbv zeta in Hto2. fold s2 in Ht2, Hto2.
  change (timer (_state (set_auto false s2))) with (timer (_state s2)).
  rewrite Ht2. unfold clearTimeout. sfields.
  change (timeouts (set_auto false s2)) with (timeouts s2).
  rewrite Hto2, (filter_fresh _ _ _ Hfr1).
  change (timeouts (set_auto true s1)) with (timeouts s1). rewrite Hto1.
  split; [reflexivity |]. split; [eauto |].
  unfold expire. sfields. rewrite (find_fresh _ _ _ Hfr).
  unfold autoMove. destruct (_ || _); sfields;
    intros H; apply app_eq_nil in H as [_ H]; discriminate H.
Qed.

Lemma auto_twice_keeps_cycling_witness :
  let s := five false 0 in
  let s' := fst (do_auto (Some false)
                   (fst (do_auto None (fst (do_auto None s))))) in
  auto (options s') = false /\
  (exists nextIdx : Z, timeouts s' = timeouts s ++ [(fresh s, nextIdx)]) /\
  timeouts (expire false 0 (fresh s) s') <> [].
Proof.
  apply (auto_twice_keeps_cycling false 0 (five false 0)).
  vm_compute. reflexivity.
Defined.

End SsliderFacts.

(** * Properties of the registry *)

Module RegistryFacts.
Import String Registry.
Local Open Scope string_scope.

Lemma generateId_truthy (hex : String.string) :
  truthy (generateId hex) = true.
Proof.
  unfold generateId, truthy.
  destruct (String.eqb hex String.EmptyString); [reflexivity |].
  cbn [String.concat].
  destruct (chunks (String.length hex) hex); reflexivity.
Qed.

Section Objects.

Variable W : Type.
Variable inherited : String.string -> bool.

(** A slider that has been registered is found under the id its container
    then has, and registering it again, whatever [generateId] would draw,
    changes neither that id nor what any lookup finds. *)
Theorem put_is_idempotent (hex hex' : String.string) (w : W)
    (cid : String.string) (o : objects W) :
  let r := put W hex w cid o in
  get W inherited (fst r) (snd r) = Own w /\
  fst (put W hex' w (fst r) (snd r)) = fst r /\
  forall id : String.string,
    get W inherited id (snd (put W hex' w (fst r) (snd r))) =
    get W inherited id (snd r).
Proof.
  cbv zeta. unfold put. cbn [fst snd].
  set (cid' := if truthy cid then cid else generateId hex).
  assert (Ht : truthy cid' = true).
  { unfold cid'. destruct (truthy cid) eqn:H; [exact H |].
    apply generateId_truthy. }
  rewrite Ht. unfold get, assign. cbn [entries prototype].
  rewrite String.eqb_refl.
  split; [| split; [reflexivity |]].
  - destruct (inherited "__proto__"); [| reflexivity].
    destruct (String.eqb cid' "__proto__"); reflexivity.
  - intros id.
    destruct (inherited "__proto__"), (String.eqb id "__proto__"),
      (String.eqb cid' "__proto__"), (String.eqb id cid'); reflexivity.
Qed.

(** Once a slider is removed, the lookup of its id finds no slider if
    [Object.prototype] has no property of that name. *)
Lemma removed_is_not_found (cid : String.string) (o : objects W) (w : W) :
  inherited cid = false ->
  get W inherited cid (remove W cid o) <> Own w.
Proof.
  intros Hi. unfold remove, get, delete. cbn [entries prototype].
  rewrite String.eqb_refl, Hi.
  destruct (inherited "__proto__") eqn:Hp; [| discriminate].
  destruct (String.eqb_spec cid "__proto__") as [He |];
    [rewrite He, Hp in Hi; discriminate Hi |].
  destruct (prototype o); discriminate.
Qed.

(** Registering a slider under an id that is not the accessor
    [__proto__] leaves the lookups of all other ids as they were.
    Removing a slider leaves the lookups of all other ids as they were,
    and, when its id is not that accessor, makes the lookup of its id
    find no slider. *)
Theorem put_and_remove_are_local (hex : String.string) (w : W)
    (cid id : String.string) (o : objects W) :
  (inherited "__proto__" && (fst (put W hex w cid o) =? "__proto__") = false ->
   id <> fst (put W hex w cid o) ->
   get W inherited id (snd (put W hex w cid o)) = get W inherited id o) /\
  (id <> cid ->
   get W inherited id (remove W cid o) = get W inherited id o) /\
  (inherited "__proto__" && (cid =? "__proto__") = false ->
   forall w' : W, get W inherited cid (remove W cid o) <> Own w').
Proof.
  unfold put, remove, get, assign, delete. cbn [fst snd entries prototype].
  split; [| split].
  - intros Hm H. apply String.eqb_neq in H. rewrite H.
    destruct (inherited "__proto__"); [| reflexivity].
    cbn [andb] in Hm. rewrite Hm. reflexivity.
  - intros H. apply String.eqb_neq in H. now rewrite H.
  - intros Hm w'. rewrite String.eqb_refl.
    destruct (inherited "__proto__").
    + cbn [andb] in Hm. rewrite Hm.
      destruct (prototype o); [discriminate |].
      destruct (inherited cid); discriminate.
    + destruct (inherited cid); discriminate.
Qed.

(** Where [Object.prototype] has the accessor [__proto__], a slider
    whose container has the id [__proto__] is registered as the prototype
    of the registry: the lookup of that id finds it, removing it changes
    nothing, so that the lookup still finds it, and the lookup of any
    other id under which the registry holds no slider now goes through
    the slider. *)
Theorem proto_id_stays_registered (hex : String.string) (w : W)
    (id : String.string) (o : objects W) :
  inherited "__proto__" = true ->
  let r := put W hex w "__proto__" o in
  fst r = "__proto__" /\
  get W inherited "__proto__" (snd r) = Own w /\
  get W inherited "__proto__" (remove W "__proto__" (snd r)) = Own w /\
  (id <> "__proto__" ->
   entries o id = None ->
   get W inherited id (snd r) = Through w).
Proof.
  intros Hp. cbv zeta.
  unfold put, remove, get, assign, delete. cbn [fst snd entries prototype].
  rewrite Hp. cbn [truthy String.eqb Ascii.eqb Bool.eqb negb].
  repeat split.
  intros Hid He. apply String.eqb_neq in Hid. now rewrite Hid, He.
Qed.

End Objects.

Lemma put_and_remove_are_local_witness :
  let o := assign nat "gallery" 3%nat (empty nat) in
  let r := put nat some_hex 7%nat "" o in
  fst r = "sslider-51ab-3f" /\
  get nat standard "gallery" (snd r) = get nat standard "gallery" o /\
  get nat standard "gallery" (remove nat "sslider-51ab-3f" (snd r)) =
    get nat standard "gallery" (snd r) /\
  (forall w' : nat,
     get nat standard "sslider-51ab-3f"
       (remove nat "sslider-51ab-3f" (snd r)) <> Own w').
Proof.
  cbv zeta. split; [reflexivity |].
  split; [| split].
  - apply (put_and_remove_are_local nat standard some_hex 7%nat ""
             "gallery"); [reflexivity | discriminate].
  - apply (put_and_remove_are_local nat standard some_hex 7%nat
             "sslider-51ab-3f" "gallery"). discriminate.
  - apply (put_and_remove_are_local nat standard some_hex 7%nat
             "sslider-51ab-3f" "gallery"). reflexivity.
Defined.

Lemma proto_id_stays_registered_witness :
  let r := put nat some_hex 7%nat "__proto__" (empty nat) in
  fst r = "__proto__" /\
  get nat standard "__proto__" (snd r) = Own 7%nat /\
  get nat standard "__proto__" (remove nat "__proto__" (snd r)) =
    Own 7%nat /\
  get nat standard "gallery" (snd r) = Through 7%nat.
Proof.
  destruct (proto_id_stays_registered nat standard some_hex 7%nat
              "gallery" (empty nat) eq_refl) as (H1 & H2 & H3 & H4).
  split; [exact H1 |]. split; [exact H2 |]. split; [exact H3 |].
  apply H4; [discriminate | reflexivity].
Defined.

End RegistryFacts.

(** * Properties of the input handlers *)

Module PageFacts.
Import Sslider Page.

Ltac pfields :=
  cbn [widget container_id registered pending set_widget later
       set_userNavActive
       options maxIdx _state legend_items runs timeouts fresh
       currentIdx left timer autoDir userNavActive
       width height userNav auto interval duration legend legendActive
       set_state set_currentIdx set_left set_timer set_autoDir
       set_legend_items set_runs set_auto setLeftPos clearTimeout
       setTimeout fst snd] in *.

Section Strategy.

Variable js : bool.
Variable inherited : String.string -> bool.

(** While the lock of user navigation is set, a key and a click on the
    legend change nothing. *)
Theorem locked_input_is_dropped (ts keyCode idx : Z) (p : Page) :
  userNavActive (_state (widget p)) = true ->
  keyup js inherited ts keyCode p = p /\ click js inherited ts idx p = p.
Proof.
  intros Hl. unfold keyup, click, preventRuthlessNavigation. rewrite Hl.
  split.
  - destruct (keys keyCode); [| reflexivity].
    destruct (Registry.get _ _ _ _); reflexivity.
  - destruct (negb (legend _)); [reflexivity |].
    destruct (Registry.get _ _ _ _); try reflexivity.
    destruct (negb (legendActive _)); reflexivity.
Qed.

(** A key other than the left and right arrows changes nothing, and does
    not set the lock. *)
Theorem other_keys_are_ignored (ts keyCode : Z) (p : Page) :
  keyCode <> 37 -> keyCode <> 39 -> keyup js inherited ts keyCode p = p.
Proof.
  intros H37 H39. unfold keyup, keys.
  apply Z.eqb_neq in H37, H39. now rewrite H37, H39.
Qed.

(** After [userNav(false)], if [Object.prototype] has no property named
    like the id of the container, keys and clicks change nothing. *)
Theorem userNav_off_disables_input (hex : String.string)
    (ts keyCode idx : Z) (p : Page) :
  inherited (container_id p) = false ->
  let p' := userNav hex (Some false) p in
  keyup js inherited ts keyCode p' = p' /\
  click js inherited ts idx p' = p'.
Proof.
  intros Hi. cbv zeta.
  pose proof (fun w => RegistryFacts.removed_is_not_found unit inherited
                        (container_id p) (registered p) w Hi) as Hno.
  unfold userNav, keyup, click. pfields. split.
  - destruct (keys keyCode); [| reflexivity].
    destruct (Registry.get _ _ _ _) as [w | | |] eqn:Hg; try reflexivity.
    now destruct (Hno w).
  - destruct (negb (legend _)); [reflexivity |].
    destruct (Registry.get _ _ _ _) as [w | | |] eqn:Hg; try reflexivity.
    now destruct (Hno w).
Qed.

(** ** Frames *)

Lemma showIdx_keeps (ts idx : Z) (s : Slider) :
  let s' := fst (showIdx js ts idx s) in
  userNavActive (_state s') = userNavActive (_state s) /\
  timer (_state s') = timer (_state s) /\
  timeouts s' = timeouts s /\
  auto (options s') = auto (options s).
Proof.
  unfold showIdx, animate. destruct (_ || _); [cbn; auto |].
  destruct js; pfields; destruct (legend (options s)) eqn:Hlg; pfields;
    rewrite ?Hlg; pfields; auto.
Qed.

Lemma autoMove_keeps (s : Slider) :
  userNavActive (_state (autoMove s)) = userNavActive (_state s) /\
  auto (options (autoMove s)) = auto (options s).
Proof.
  unfold autoMove. destruct (_ || _); pfields; auto.
Qed.

Lemma deliver_keeps (es : list Ip.event) : forall s : Slider,
  userNavActive (_state (deliver es s)) = userNavActive (_state s) /\
  timer (_state (deliver es s)) = timer (_state s).
Proof.
  induction es as [| e es IH]; intros s; [cbn; auto |].
  unfold deliver in *. cbn [fold_left].
  destruct (IH (match e with Ip.Update v => setLeftPos v s | _ => s end))
    as (Hu & Ht).
  rewrite Hu, Ht. destruct e; split; reflexivity.
Qed.

Lemma ipTick_keeps (k : nat) (now ts : Z) (s : Slider) :
  let s' := ipTick k now ts s in
  userNavActive (_state s') = userNavActive (_state s) /\
  timer (_state s') = timer (_state s) /\
  timeouts s' = timeouts s /\
  auto (options s') = auto (options s).
Proof.
  cbv zeta. unfold ipTick.
  destruct (nth_error (runs s) k) as [w |]; [| auto].
  set (es := skipn _ _). set (s1 := set_runs _ s).
  destruct (deliver_keeps es s1) as (Hu & Ht).
  destruct (SsliderFacts.deliver_rest es s1) as (_ & Hto & _).
  destruct (SsliderFacts.deliver_frame es s1) as (Ho & _).
  rewrite Hu, Ht, Hto, Ho. auto.
Qed.

Lemma expire_keeps_lock (ts : Z) (h : nat) (s : Slider) :
  userNavActive (_state (expire js ts h s)) = userNavActive (_state s).
Proof.
  unfold expire. destruct (find _ _) as [[h' n] |]; [| reflexivity].
  rewrite (proj1 (autoMove_keeps _)).
  now rewrite (proj1 (showIdx_keeps _ _ _)).
Qed.

Lemma count_later (c c' : callback) (p : Page) :
  count c (later c' p) =
    (count c p +
     match c, c' with
     | Unlock, Unlock => 1
     | ResumeAuto, ResumeAuto => 1
     | _, _ => 0
     end)%nat.
Proof.
  unfold count, later. pfields. rewrite filter_app, length_app.
  destruct c, c'; reflexivity.
Qed.

Lemma count_removed (c c' : callback) (l : list callback) (k : nat) :
  nth_error l k = Some c' ->
  let f := fun x => match c, x with
                    | Unlock, Unlock => true
                    | ResumeAuto, ResumeAuto => true
                    | _, _ => false
                    end in
  (length (filter f (firstn k l ++ skipn (S k) l)) +
   (if f c' then 1 else 0))%nat = length (filter f l).
Proof.
  intros Hk f. rewrite <- (firstn_skipn k l) at 3.
  rewrite !filter_app, !length_app.
  assert (Hs : skipn k l = c' :: skipn (S k) l).
  { revert k Hk. induction l as [| a l IH]; intros [| k] Hk;
      try discriminate.
    - cbn in *. now injection Hk as ->.
    - cbn in *. now apply IH. }
  rewrite Hs. cbn [filter]. destruct (f c'); cbn [length]; lia.
Qed.

(** ** The lock of user navigation *)

Lemma pauseAutoMoving_lock (p : Page) :
  userNavActive (_state (widget (pauseAutoMoving p))) =
    userNavActive (_state (widget p)) /\
  count Unlock (pauseAutoMoving p) = count Unlock p.
Proof.
  unfold pauseAutoMoving. destruct (auto (options (widget p))); [| auto].
  rewrite count_later. pfields.
  destruct (timer (_state (widget p))); pfields; split;
    try reflexivity; unfold count; pfields; lia.
Qed.

Lemma navigation_lock (p : Page) (nav : Page -> Slider) :
  (forall q, userNavActive (_state (nav q)) =
             userNavActive (_state (widget q))) ->
  lock_pending p ->
  lock_pending
    (let (p', locked) := preventRuthlessNavigation p in
     if locked then p'
     else let p' := pauseAutoMoving p' in set_widget (nav p') p').
Proof.
  intros Hnav Hl. unfold preventRuthlessNavigation.
  destruct (userNavActive (_state (widget p))) eqn:Hu; [exact Hl |].
  unfold lock_pending in *. rewrite Hu in Hl.
  set (p1 := set_widget _ (later Unlock p)).
  destruct (pauseAutoMoving_lock p1) as [Hu' Hc'].
  unfold count in *. pfields. rewrite Hnav, Hu'. 
  change (pending (set_widget (nav (pauseAutoMoving p1))
                     (pauseAutoMoving p1)))
    with (pending (pauseAutoMoving p1)).
  rewrite Hc'. subst p1. pfields.
  rewrite filter_app, length_app, Hl. reflexivity.
Qed.

Lemma handle_lock (e : event) (p : Page) :
  lock_pending p -> lock_pending (handle js inherited e p).
Proof.
  intros Hl. destruct e as [ts x | ts idx | k | ts h | k now ts];
    cbn [handle].
  - unfold keyup. destruct (keys x) as [dir |]; [| exact Hl].
    destruct (Registry.get _ _ _ _); try exact Hl.
    apply (navigation_lock p
             (fun q => match dir with
                       | DirPrev => fst (prev js ts (widget q))
                       | DirNext => fst (next js ts (widget q))
                       end)); [| exact Hl].
    intros q. destruct dir; unfold prev, next;
      apply (proj1 (showIdx_keeps _ _ _)).
  - unfold click. destruct (negb (legend _)); [exact Hl |].
    destruct (Registry.get _ _ _ _); try exact Hl.
    destruct (negb (legendActive _)); [exact Hl |].
    apply (navigation_lock p
             (fun q => fst (showIdx js ts idx (widget q)))); [| exact Hl].
    intros q. apply (proj1 (showIdx_keeps _ _ _)).
  - unfold fire. destruct (nth_error (pending p) k) as [c |] eqn:Hk;
      [| exact Hl].
    pose proof (count_removed Unlock c (pending p) k Hk) as Hc.
    cbv zeta in Hc. unfold lock_pending, count in *.
    destruct c; pfields.
    + destruct (userNavActive (_state (widget p))); lia.
    + unfold do_auto. pfields.
      rewrite (proj1 (autoMove_keeps _)). pfields.
      destruct (userNavActive (_state (widget p))); lia.
  - unfold lock_pending, count in *. pfields.
    now rewrite expire_keeps_lock.
  - unfold lock_pending, count in *. pfields.
    now rewrite (proj1 (ipTick_keeps _ _ _ _)).
Qed.

Lemma create_unlocked (ts : Z) (n : nat) (o : Options) :
  userNavActive (_state (Sslider.create js ts n o)) = false.
Proof.
  unfold Sslider.create. cbv zeta.
  destruct (auto _); unfold do_auto; pfields;
    rewrite ?(proj1 (autoMove_keeps _)); pfields;
    now rewrite (proj1 (showIdx_keeps _ _ _)).
Qed.

(** The lock of user navigation always clears: whatever the user does and
    whichever timers fire, the lock is set exactly while the one timeout
    that clears it is pending. *)
Theorem lock_always_clears (ts : Z) (hex : String.string) (n : nat)
    (o : Options) (es : list event) :
  lock_pending (handle_all js inherited es (create js ts hex n o)).
Proof.
  assert (H : forall p, lock_pending p ->
                        lock_pending (handle_all js inherited es p)).
  { induction es as [| e es IH]; intros p Hp; [exact Hp |].
    cbn. apply IH. now apply handle_lock. }
  apply H. unfold lock_pending, count, create. pfields.
  now rewrite create_unlocked.
Qed.

(** ** Automatic cycling under user navigation *)

Lemma only_timeout (h : nat) (n : Z) :
  filter (fun p : nat * Z => negb (Nat.eqb (fst p) h)) [(h, n)] = [].
Proof. cbn. now rewrite Nat.eqb_refl. Qed.

Lemma autoMove_rearms (s : Slider) :
  timeouts s = [] ->
  exists h n, timer (_state (autoMove s)) = Some h /\
              timeouts (autoMove s) = [(h, n)].
Proof.
  intros H. unfold autoMove. destruct (_ || _); pfields; rewrite H;
    eexists; eexists; split; reflexivity.
Qed.

Lemma navigation_cycling (p : Page) (nav : Page -> Slider) :
  (forall q, timer (_state (nav q)) = timer (_state (widget q)) /\
             timeouts (nav q) = timeouts (widget q) /\
             auto (options (nav q)) = auto (options (widget q))) ->
  cycling p ->
  cycling
    (let (p', locked) := preventRuthlessNavigation p in
     if locked then p'
     else let p' := pauseAutoMoving p' in set_widget (nav p') p').
Proof.
  intros Hnav Hc. unfold preventRuthlessNavigation.
  destruct (userNavActive (_state (widget p))) eqn:Hu; [exact Hc |].
  set (p1 := set_widget _ (later Unlock p)).
  assert (Hc1 : cycling p1).
  { unfold cycling, count in *. subst p1. pfields.
    rewrite filter_app, length_app. cbn [filter length].
    rewrite Nat.add_0_r. exact Hc. }
  clearbody p1. clear Hc Hu p.
  unfold cycling. destruct (Hnav (pauseAutoMoving p1)) as (Ht & Hto & Ha).
  unfold count in *. pfields. rewrite Ht, Hto, Ha.
  change (pending (set_widget (nav (pauseAutoMoving p1))
                     (pauseAutoMoving p1)))
    with (pending (pauseAutoMoving p1)).
  clear Ht Hto Ha. unfold pauseAutoMoving.
  destruct Hc1 as [(Ha & (h & n & Ht & Hto) & Hr) | (Ha & Hto & Hr)];
    rewrite Ha.
  - right. pfields. rewrite Ht. pfields. rewrite Hto, only_timeout.
    rewrite filter_app, length_app. unfold count in Hr. rewrite Hr.
    repeat split.
  - right. repeat split; assumption.
Qed.

Lemma handle_cycling (e : event) (p : Page) :
  cycling p -> cycling (handle js inherited e p).
Proof.
  intros Hc. destruct e as [ts x | ts idx | k | ts h | k now ts];
    cbn [handle].
  - unfold keyup. destruct (keys x) as [dir |]; [| exact Hc].
    destruct (Registry.get _ _ _ _); try exact Hc.
    apply (navigation_cycling p
             (fun q => match dir with
                       | DirPrev => fst (prev js ts (widget q))
                       | DirNext => fst (next js ts (widget q))
                       end)); [| exact Hc].
    intros q. destruct dir; unfold prev, next;
      apply (proj2 (showIdx_keeps _ _ _)).
  - unfold click. destruct (negb (legend _)); [exact Hc |].
    destruct (Registry.get _ _ _ _); try exact Hc.
    destruct (negb (legendActive _)); [exact Hc |].
    apply (navigation_cycling p
             (fun q => fst (showIdx js ts idx (widget q)))); [| exact Hc].
    intros q. apply (proj2 (showIdx_keeps _ _ _)).
  - unfold fire. destruct (nth_error (pending p) k) as [c |] eqn:Hk;
      [| exact Hc].
    pose proof (count_removed ResumeAuto c (pending p) k Hk) as Hn.
    cbv zeta in Hn. unfold cycling, count in *.
    destruct c; pfields.
    + rewrite Nat.add_0_r in Hn. rewrite Hn. exact Hc.
    + destruct Hc as [(Ha & _ & Hr) | (Ha & Hto & Hr)]; [lia |].
      left. unfold do_auto. pfields.
      rewrite (proj2 (autoMove_keeps _)). pfields.
      split; [reflexivity |]. split; [| lia].
      apply autoMove_rearms. exact Hto.
  - unfold cycling, count in *. pfields. unfold expire.
    destruct Hc as [(Ha & (h' & n & Ht & Hto) & Hr) | (Ha & Hto & Hr)].
    + rewrite Hto. cbn [find fst].
      destruct (Nat.eqb_spec h' h) as [-> | Hne].
      * left. rewrite (proj2 (autoMove_keeps _)).
        destruct (showIdx_keeps ts n
                    (clearTimeout (Some h) (widget p)))
          as (_ & _ & Hto' & Ha'). cbv zeta in *.
        rewrite Ha'. pfields. split; [exact Ha |]. split; [| exact Hr].
        apply autoMove_rearms. rewrite Hto'. pfields.
        rewrite Hto. apply only_timeout.
      * left. split; [exact Ha |]. split; [| exact Hr].
        exists h', n. split; assumption.
    + rewrite Hto. cbn [find]. right. repeat split; assumption.
  - unfold cycling, count in *. pfields.
    destruct (ipTick_keeps k now ts (widget p)) as (_ & Ht & Hto & Ha).
    cbv zeta in *. rewrite Ht, Hto, Ha. exact Hc.
Qed.

Lemma create_cycling (ts : Z) (hex : String.string) (n : nat)
    (o : Options) :
  auto o = true -> cycling (create js ts hex n o).
Proof.
  intros Ha. left. unfold create, count. pfields.
  unfold Sslider.create. cbv zeta.
  rewrite SsliderFacts.showIdx_options. cbn [blank options]. rewrite Ha.
  unfold do_auto. pfields. rewrite (proj2 (autoMove_keeps _)). pfields.
  split; [reflexivity |]. split; [| reflexivity].
  apply autoMove_rearms. pfields.
  now rewrite (proj1 (proj2 (proj2 (showIdx_keeps _ _ _)))).
Qed.

(** Automatic cycling that the constructor switched on survives user
    navigation, neither lost nor doubled: whatever keys and clicks arrive
    and whichever timers fire, either exactly one timeout of [autoMove] is
    armed, the one in [_state.timer], and no resumption is pending, or none
    is armed and exactly one resumption is pending. *)
Theorem cycling_survives_navigation (ts : Z) (hex : String.string)
    (n : nat) (o : Options) (es : list event) :
  auto o = true ->
  cycling (handle_all js inherited es (create js ts hex n o)).
Proof.
  intros Ha.
  assert (H : forall p, cycling p ->
                        cycling (handle_all js inherited es p)).
  { induction es as [| e es IH]; intros p Hp; [exact Hp |].
    cbn. apply IH. now apply handle_cycling. }
  apply H. now apply create_cycling.
Qed.

(** An arrow key on a registered slider whose lock is not set shows the
    neighbouring image, if there is one, sets the lock and leaves automatic
    cycling switched off until its resumption. *)
Theorem arrow_key_moves (ts keyCode : Z) (p : Page) :
  Registry.get unit inherited (container_id p) (registered p) =
    Registry.Own tt ->
  userNavActive (_state (widget p)) = false ->
  keyCode = 37 \/ keyCode = 39 ->
  let step := if keyCode =? 37 then -1 else 1 in
  0 <= currentIdx (_state (widget p)) + step <= maxIdx (widget p) ->
  let p' := keyup js inherited ts keyCode p in
  currentIdx (_state (widget p')) = currentIdx (_state (widget p)) + step /\
  userNavActive (_state (widget p')) = true /\
  auto (options (widget p')) = false.
Proof.
  intros Hg Hu Hk. cbv zeta. intros Hr.
  unfold keyup, preventRuthlessNavigation. rewrite Hg, Hu.
  set (p1 := set_widget _ (later Unlock p)).
  assert (H1 : currentIdx (_state (widget (pauseAutoMoving p1))) =
               currentIdx (_state (widget p)) /\
               maxIdx (widget (pauseAutoMoving p1)) = maxIdx (widget p) /\
               userNavActive (_state (widget (pauseAutoMoving p1))) = true /\
               auto (options (widget (pauseAutoMoving p1))) = false).
  { unfold pauseAutoMoving, p1. pfields.
    destruct (auto (options (widget p))) eqn:Ha; pfields;
      [destruct (timer (_state (widget p))); pfields |]; auto. }
  destruct H1 as (Hc & Hm & Hl & Ha).
  set (p2 := pauseAutoMoving p1) in *. clearbody p2.
  assert (Hshow : forall idx,
             0 <= idx <= maxIdx (widget p2) ->
             let s := fst (showIdx js ts idx (widget p2)) in
             currentIdx (_state s) = idx /\
             userNavActive (_state s) = true /\
             auto (options s) = false).
  { intros idx Hi. cbv zeta.
    destruct (showIdx_keeps ts idx (widget p2)) as (Hu' & _ & _ & Ha').
    cbv zeta in *. rewrite Hu', Ha', SsliderFacts.showIdx_currentIdx.
    destruct (Z.ltb_spec idx 0); [lia |].
    destruct (Z.ltb_spec (maxIdx (widget p2)) idx); [lia |]. auto. }
  destruct Hk as [-> | ->]; cbn [keys Z.eqb Pos.eqb] in *; pfields;
    unfold prev, next; rewrite Hc; apply Hshow; rewrite Hm;
    replace (currentIdx (_state (widget p)) - 1)
      with (currentIdx (_state (widget p)) + -1) by lia; exact Hr.
Qed.

End Strategy.

Lemma locked_input_is_dropped_witness :
  let p := keyup false plain 0 39
             (create false 0 Registry.some_hex 5 defaultOptions) in
  keyup false plain 5 39 p = p /\ click false plain 5 3 p = p.
Proof.
  apply (locked_input_is_dropped false plain 5 39 3).
  vm_compute. reflexivity.
Defined.

Lemma other_keys_are_ignored_witness :
  let p := create false 0 Registry.some_hex 5 defaultOptions in
  keyup false plain 5 13 p = p.
Proof.
  apply (other_keys_are_ignored false plain 5 13); discriminate.
Defined.

Lemma userNav_off_disables_input_witness :
  let p := userNav Registry.some_hex (Some false)
             (create false 0 Registry.some_hex 5 defaultOptions) in
  keyup false plain 5 39 p = p /\ click false plain 5 3 p = p.
Proof.
  apply (userNav_off_disables_input false plain Registry.some_hex 5 39 3).
  reflexivity.
Defined.

Lemma cycling_survives_navigation_witness :
  cycling (handle_all false plain
             [KeyUp 10 39; Fire 0; AutoExpire 20 1; KeyUp 400 37; Fire 0;
              Click 900 3]
             (create false 0 Registry.some_hex 5 cyclingOptions)).
Proof.
  apply (cycling_survives_navigation false plain 0 Registry.some_hex 5
           cyclingOptions).
  reflexivity.
Defined.

Lemma arrow_key_moves_witness :
  let p := create false 0 Registry.some_hex 5 defaultOptions in
  let p' := keyup false plain 5 39 p in
  currentIdx (_state (widget p')) = 1 /\
  userNavActive (_state (widget p')) = true /\
  auto (options (widget p')) = false.
Proof.
  apply (arrow_key_moves false plain 5 39
           (create false 0 Registry.some_hex 5 defaultOptions)).
  - vm_compute. reflexivity.
  - vm_compute. reflexivity.
  - right. reflexivity.
  - vm_compute. split; discriminate.
Defined.

End PageFacts.
